(** * SIEVE cache (bugcacher/sieve-go): a shallow embedding of [cache.go]

    The Go program keeps its entries in a [container/list] doubly linked
    list, an index [map[K]*list.Element] and a roaming [hand] pointer.  The
    pointers matter: [Get] flips a flag through the index pointer that
    [evict] later reads through the list, and [Delete] can leave [hand]
    pointing at an element that is no longer linked.  The embedding therefore
    keeps an explicit store of element cells addressed by element
    identifiers, and every operation is a function in a small state monad
    whose outcome is either a result or a fault (Go panic). *)

From Stdlib Require Import ZArith Lia.
From stdpp Require Import gmap strings list fin_maps.

(** ** Zero values

    Go gives every type a zero value; [var value V] and [var evictedKey K]
    in the generic methods denote the one of the type parameter. *)

Class Zero (A : Type) := zero : A.
#[global] Hint Mode Zero ! : typeclass_instances.

#[global] Instance string_zero : Zero string := ""%string.
#[global] Instance Z_zero : Zero Z := 0%Z.

(** ** 64-bit signed integers ([int64]) *)

Module Int64.
Definition min_int : Z := (- 2 ^ 63)%Z.
Definition max_int : Z := (2 ^ 63 - 1)%Z.

(** Two's complement wrap-around of a mathematical integer. *)
Definition wrap (z : Z) : Z := ((z + 2 ^ 63) mod 2 ^ 64 - 2 ^ 63)%Z.

Definition in_range (z : Z) : Prop := (min_int ≤ z ≤ max_int)%Z.

Definition add (x y : Z) : Z := wrap (x + y).
Definition sub (x y : Z) : Z := wrap (x - y).

End Int64.

(** ** Errors, faults and outcomes *)

(** The three package-level error values of [cache.go]. *)
Inductive error := ErrKeyNotFound | ErrEmptyCache | ErrInvalidCapacity.

(** Ways in which a run of the model does not return.  [NilDereference] is
    the Go runtime panic of [curr.Value] on a nil [*list.Element].
    [WildPointer] is a read through an identifier that has no cell: Go cannot
    produce such a pointer, and no state that satisfies the invariants [wf]
    below has one.  [FuelExhausted] is a loop of the model running out of
    its iteration bound, which no run does. *)
Inductive fault := NilDereference | WildPointer | FuelExhausted.

Inductive outcome (A : Type) : Type :=
  | Ret (a : A)
  | Fail (f : fault).
Arguments Ret {A} a.
Arguments Fail {A} f.

(** ** The model of [container/list] used by the cache

    A [*list.Element] is an identifier ([None] is the nil pointer).  A list
    is the sequence of its linked elements from front to back; an element
    that has been removed is simply absent from the sequence, which is what
    Go records by resetting its [list], [prev] and [next] fields. *)

Abbreviation Element := nat (only parsing).

Module GoList.
Abbreviation t := (list Element) (only parsing).

(** [list.New()] *)
Definition New : t := [].

(** [l.Front()] and [l.Back()]: nil on an empty list. *)
Definition Front (l : t) : option Element := head l.
Definition Back (l : t) : option Element := last l.

(** [e.Prev()]: the element linked before [e]; nil when [e] is the front
    or when [e] is not linked in the list any more. *)
Fixpoint Prev (l : t) (e : Element) : option Element :=
  match l with
  | [] => None
  | x :: l' =>
      match l' with
      | [] => None
      | y :: _ => if decide (y = e) then Some x else Prev l' e
      end
  end.

(** [e.Next()], the mirror image. *)
Fixpoint Next (l : t) (e : Element) : option Element :=
  match l with
  | [] => None
  | x :: l' => if decide (x = e) then head l' else Next l' e
  end.

(** [l.Remove(e)]: unlinks [e] when it is an element of [l], and leaves
    [l] alone otherwise.  An element is linked at most once, so dropping
    every occurrence drops the one there is. *)
Definition Remove (l : t) (e : Element) : t := filter (λ x, x ≠ e) l.

(** [l.PushFront(v)] links a newly allocated element before the front. *)
Definition PushFront (l : t) (e : Element) : t := e :: l.

End GoList.

Section Sieve.
Context {K V : Type} `{Countable K}.
Context `{Zero K} `{Zero V}.

(** ** Data *)

Record nodeEntry := mkEntry { visited : bool; key : K; value : V }.

Record Item := mkItem { Key : K; Value : V }.

(** [cells] holds, for every element ever pushed since the last [init],
    the [nodeEntry] its [Value] field points to. *)
Record Cache := mkCache {
  capacity : Z;
  size : Z;
  q : GoList.t;
  keysMap : gmap K Element;
  hand : option Element;
  cells : gmap Element nodeEntry
}.

Definition set_capacity (n : Z) (c : Cache) : Cache :=
  mkCache n (size c) (q c) (keysMap c) (hand c) (cells c).
Definition set_size (n : Z) (c : Cache) : Cache :=
  mkCache (capacity c) n (q c) (keysMap c) (hand c) (cells c).
Definition set_q (l : GoList.t) (c : Cache) : Cache :=
  mkCache (capacity c) (size c) l (keysMap c) (hand c) (cells c).
Definition set_keysMap (m : gmap K Element) (c : Cache) : Cache :=
  mkCache (capacity c) (size c) (q c) m (hand c) (cells c).
Definition set_hand (h : option Element) (c : Cache) : Cache :=
  mkCache (capacity c) (size c) (q c) (keysMap c) h (cells c).
Definition set_cells (h : gmap Element nodeEntry) (c : Cache) : Cache :=
  mkCache (capacity c) (size c) (q c) (keysMap c) (hand c) h.

Definition set_visited (b : bool) (n : nodeEntry) : nodeEntry :=
  mkEntry b (key n) (value n).

(** ** The monad of cache methods: state passing with faults *)

Definition M (A : Type) : Type := Cache → outcome (A * Cache).

#[global] Instance cache_ret : MRet M := λ A a c, Ret (a, c).
#[global] Instance cache_bind : MBind M := λ A B k m c,
  match m c with
  | Ret (a, c') => k a c'
  | Fail f => Fail f
  end.
#[global] Instance cache_throw : MThrow fault M := λ A f c, Fail f.

Definition get : M Cache := λ c, Ret (c, c).
Definition modify (f : Cache → Cache) : M unit := λ c, Ret (tt, f c).

(** [p.Value.( *nodeEntry)]: read the entry behind an element pointer. *)
Definition load (p : option Element) : M nodeEntry :=
  λ c, match p with
       | None => Fail NilDereference
       | Some e =>
           match cells c !! e with
           | Some n => Ret (n, c)
           | None => Fail WildPointer
           end
       end.

(** [entry.visited = b] through the pointer held by element [e]. *)
Definition store_visited (e : Element) (b : bool) : M unit :=
  modify (λ c, set_cells (alter (set_visited b) e (cells c)) c).

(** ** Methods of [Cache] *)

(** [init] *)
Definition init : M unit :=
  modify (λ c, mkCache (capacity c) 0 GoList.New ∅ None ∅).

(** [NewCache] *)
Definition NewCache (capacity : Z) : Cache :=
  mkCache capacity 0 GoList.New ∅ None ∅.

Definition Size (c : Cache) : Z := size c.
Definition Capacity (c : Cache) : Z := capacity c.

(** [Get] *)
Definition Get (k : K) : M (V * option error) :=
  c ← get;
  match keysMap c !! k with
  | None => mret (zero, Some ErrKeyNotFound)
  | Some ele =>
      entry ← load (Some ele);
      store_visited ele true;;
      mret (value entry, None)
  end.

(** The scan of [evict]: [for { ... }] leaves with the first element whose
    entry is not visited.  [or_back] is the statement
    [if curr == nil { curr = c.q.Back() }]. *)
Definition or_back (l : GoList.t) (p : option Element) : option Element :=
  match p with
  | Some e => Some e
  | None => GoList.Back l
  end.

Fixpoint scan (fuel : nat) (curr : option Element) : M Element :=
  match fuel with
  | O => mthrow FuelExhausted
  | S fuel' =>
      match curr with
      | None => mthrow NilDereference
      | Some e =>
          entry ← load (Some e);
          if negb (visited entry) then mret e
          else
            store_visited e false;;
            c ← get;
            scan fuel' (or_back (q c) (GoList.Prev (q c) e))
      end
  end.

(** Every pass of the loop that does not leave it clears one flag that was
    set, so one more pass than there are set flags is always enough. *)
Definition visited_cells (h : gmap Element nodeEntry) : gmap Element nodeEntry :=
  filter (λ p, visited p.2 = true) h.

Definition scan_fuel (c : Cache) : nat := S (base.size (visited_cells (cells c))).

(** [evict] *)
Definition evict : M (K * option error) :=
  c ← get;
  if decide (size c = 0%Z) then mret (zero, Some ErrEmptyCache)
  else
    curr ← scan (scan_fuel c) (or_back (q c) (hand c));
    modify (λ c, set_hand (GoList.Prev (q c) curr) c);;
    modify (λ c, set_q (GoList.Remove (q c) curr) c);;
    modify (λ c, set_size (Int64.sub (size c) 1) c);;
    entry ← load (Some curr);
    modify (λ c, set_keysMap (delete (key entry) (keysMap c)) c);;
    mret (key entry, None).

(** [Evict] *)
Definition Evict : M (K * option error) := evict.

(** [Set] *)
Definition Set_ (k : K) (v : V) : M unit :=
  c ← get;
  if decide (capacity c <= 0)%Z then mret tt
  else
    '(_, err) ← Get k;
    match err with
    | None => mret tt
    | Some _ =>
        c ← get;
        (if decide (size c = capacity c) then evict ;; mret tt else mret tt);;
        c ← get;
        let element := fresh (dom (cells c)) in
        modify (λ c, set_cells (<[element := mkEntry false k v]> (cells c))
                       (set_q (GoList.PushFront (q c) element) c));;
        modify (λ c, set_keysMap (<[k := element]> (keysMap c)) c);;
        modify (λ c, set_size (Int64.add (size c) 1) c)
    end.

(** A [range] loop over a Go map visits its entries in an order the
    language leaves unspecified, and which may differ from one loop to the
    next: any enumeration of the map is a possible order. *)
Definition range_order {A} (m : gmap K A) (l : list (K * A)) : Prop :=
  l ≡ₚ map_to_list m.

(** [Keys] ranges over [keysMap].  The order of the result is one of the
    possible orders of the loop, here that of [map_to_list]; it carries no
    meaning, and the facts stated about [Keys] concern the length, the
    members and the list up to permutation only. *)
Definition Keys (c : Cache) : list K := (map_to_list (keysMap c)).*1.

(** [Items] ranges over [keysMap] in a loop of its own, whose order need
    not be that of [Keys]: [items_of] is the body of the loop for any order
    of visit, and [Items] runs it in the order of [map_to_list]. *)
Fixpoint items_of (l : list (K * Element)) : M (list Item) :=
  match l with
  | [] => mret []
  | (k, ele) :: l' =>
      entry ← load (Some ele);
      items ← items_of l';
      mret (mkItem k (value entry) :: items)
  end.

Definition Items : M (list Item) :=
  c ← get; items_of (map_to_list (keysMap c)).

(** [Clear] *)
Definition Clear : M unit := init.

(** [Print] writes the entries to standard output and changes nothing; it
    has no counterpart here. *)

(** [Delete] *)
Definition Delete (k : K) : M (V * option error) :=
  c ← get;
  match keysMap c !! k with
  | None => mret (zero, Some ErrKeyNotFound)
  | Some ele =>
      modify (λ c, set_keysMap (delete k (keysMap c)) c);;
      entry ← load (Some ele);
      modify (λ c, set_q (GoList.Remove (q c) ele) c);;
      mret (value entry, None)
  end.

(** [Contains] *)
Definition Contains (k : K) : M bool :=
  c ← get;
  mret (bool_decide (is_Some (keysMap c !! k))).

(** [Resize]; the loop [for keysToEvictCount > 0 { ... }] counts down an
    [int64]. *)
Fixpoint resize_loop (fuel : nat) (keysToEvictCount : Z) (evictedKeys : list K)
  : M (list K) :=
  if decide (keysToEvictCount > 0)%Z then
    match fuel with
    | O => mthrow FuelExhausted
    | S fuel' =>
        '(k, err) ← evict;
        resize_loop fuel' (Int64.sub keysToEvictCount 1)
          (match err with
           | None => evictedKeys ++ [k]
           | Some _ => evictedKeys
           end)
    end
  else mret evictedKeys.

Definition Resize (newCapacity : Z) : M (list K) :=
  c ← get;
  if decide (newCapacity >= capacity c)%Z then
    modify (set_capacity newCapacity);;
    mret []
  else
    let keysToEvictCount := Int64.sub (Size c) newCapacity in
    evictedKeys ← resize_loop (Z.to_nat keysToEvictCount) keysToEvictCount [];
    modify (set_capacity newCapacity);;
    mret evictedKeys.


(** ** The data-model invariants

    Every linked element has a cell and is the one the index holds for
    its key; the index holds linked elements only, each under its own key;
    the hand, when set, is linked; [size] counts the linked elements. *)

Definition live (c : Cache) (e : Element) : Prop :=
  cells c !! e ≫= (λ n, keysMap c !! key n) = Some e.

Definition indexed (c : Cache) (k : K) (e : Element) : Prop :=
  e ∈ q c ∧ key <$> cells c !! e = Some k.

Definition hand_linked (c : Cache) : Prop :=
  match hand c with
  | Some h => h ∈ q c
  | None => True
  end.

Definition wf (c : Cache) : Prop :=
  NoDup (q c) ∧
  Forall (live c) (q c) ∧
  map_Forall (indexed c) (keysMap c) ∧
  hand_linked c ∧
  size c = Z.of_nat (length (q c)) ∧
  (size c ≤ Int64.max_int)%Z.

#[global] Instance live_dec c e : Decision (live c e).
Proof. unfold live. apply _. Defined.
#[global] Instance indexed_dec c k e : Decision (indexed c k e).
Proof. unfold indexed. apply _. Defined.
#[global] Instance hand_linked_dec c : Decision (hand_linked c).
Proof. unfold hand_linked. destruct (hand c); apply _. Defined.
#[global] Instance wf_dec c : Decision (wf c).
Proof. unfold wf. apply _. Defined.


(** ** Specification-level notions

    What the statements below talk about: the scan rule as a relation,
    the states the methods leave, and runs of several evictions. *)

(** The scan rule in relational form: from element [e] and cells [h] the
    sweep ends at victim [v] with cells [h'].  A visited entry is demoted
    and the sweep moves to its predecessor, or wraps to the back of the
    list when it has none; the first entry found unvisited is the victim. *)
Inductive sweep (l : list Element) :
  gmap Element nodeEntry → Element → gmap Element nodeEntry → Element → Prop :=
| sweep_victim h e n :
    h !! e = Some n → visited n = false → sweep l h e h e
| sweep_pred h e n p h' v :
    h !! e = Some n → visited n = true →
    GoList.Prev l e = Some p →
    sweep l (alter (set_visited false) e h) p h' v →
    sweep l h e h' v
| sweep_wrap h e n b h' v :
    h !! e = Some n → visited n = true →
    GoList.Prev l e = None → GoList.Back l = Some b →
    sweep l (alter (set_visited false) e h) b h' v →
    sweep l h e h' v.

(** The state [evict] leaves once the scan has settled on victim [v],
    whose entry is [n], with cells [h']. *)
Definition evicted (c : Cache) (v : Element) (n : nodeEntry)
    (h' : gmap Element nodeEntry) : Cache :=
  {| capacity := capacity c;
     size := Int64.sub (size c) 1;
     q := GoList.Remove (q c) v;
     keysMap := delete (key n) (keysMap c);
     hand := GoList.Prev (q c) v;
     cells := h' |}.

(** The state after the three statements that end [Set]: a new element
    pushed at the front with an unvisited entry for [k], registered in the
    index, and [size] incremented. *)
Definition inserted (k : K) (v : V) (c : Cache) : Cache :=
  let element := fresh (dom (cells c)) in
  {| capacity := capacity c;
     size := Int64.add (size c) 1;
     q := element :: q c;
     keysMap := <[k := element]> (keysMap c);
     hand := hand c;
     cells := <[element := mkEntry false k v]> (cells c) |}.

(** [n] calls of [evict] in a row: a call that fails with an error is
    ignored, and the keys evicted are collected in the order of the
    calls. *)
Fixpoint evict_times (n : nat) : M (list K) :=
  match n with
  | O => mret []
  | S n' =>
      '(k, err) ← evict;
      ks ← evict_times n';
      mret (match err with
            | None => k :: ks
            | Some _ => ks
            end)
  end.

(** [n] calls of [Evict] in a row, every result collected. *)
Fixpoint Evict_seq (n : nat) : M (list (K * option error)) :=
  match n with
  | O => mret []
  | S n' =>
      r ← Evict;
      rs ← Evict_seq n';
      mret (r :: rs)
  end.

(** ** The order of a scan *)

(** The cells once the scan has demoted the entries of [p], one after the
    other. *)
Definition demote_all (p : list Element) (h : gmap Element nodeEntry)
  : gmap Element nodeEntry :=
  foldl (λ h x, alter (set_visited false) x h) h p.

(** The order in which a scan that starts at [s] meets the elements of the
    list [l1 ++ s :: l2]: first [s], then the elements before it, nearest
    first, up to the front, then, wrapping around, the elements after it
    from the back. *)
Definition scan_order (l1 : list Element) (s : Element) (l2 : list Element)
  : list Element :=
  s :: reverse l1 ++ reverse l2.

(** [p] is a stretch of a scan of [l]: each element is followed by its
    predecessor, or by the back of [l] when it has none. *)
Fixpoint chain (l p : list Element) : Prop :=
  match p with
  | [] => True
  | a :: p' =>
      match p' with
      | [] => True
      | b :: _ => or_back l (GoList.Prev l a) = Some b ∧ chain l p'
      end
  end.

(** The entries of the cache in list order, front (newest) first; the
    order in which [Print] walks them. *)
Definition listing (c : Cache) : list nodeEntry :=
  omap (λ e, cells c !! e) (q c).

(** ** Runs of public calls *)

Inductive call :=
  | CallSet (k : K) (v : V)
  | CallGet (k : K)
  | CallContains (k : K)
  | CallDelete (k : K)
  | CallEvict
  | CallResize (newCapacity : Z)
  | CallClear.

(** One call, its results dropped. *)
Definition perform (o : call) : M unit :=
  match o with
  | CallSet k v => Set_ k v
  | CallGet k => Get k;; mret tt
  | CallContains k => Contains k;; mret tt
  | CallDelete k => Delete k;; mret tt
  | CallEvict => Evict;; mret tt
  | CallResize n => Resize n;; mret tt
  | CallClear => Clear
  end.

Fixpoint perform_all (l : list call) : M unit :=
  match l with
  | [] => mret tt
  | o :: l' => perform o;; perform_all l'
  end.

Definition is_Delete (o : call) : bool :=
  match o with
  | CallDelete _ => true
  | _ => false
  end.

(** What a run of calls keeps when it has no [Delete] and only resizes to
    capacities that are not negative: the invariants, the capacity within
    [int64], and [size] within the capacity. *)
Definition bounded (c : Cache) : Prop :=
  wf c ∧ (capacity c ≤ Int64.max_int)%Z ∧ (size c ≤ 0 `max` capacity c)%Z.

End Sieve.

(** ** Concrete caches

    Caches over string keys and values, named after the calls that build
    them from [NewCache]; they serve as inputs of the test scenarios. *)

Module Scenario.
Open Scope string_scope.

Abbreviation cache := (Cache (K:=string) (V:=string)) (only parsing).

(** The state a run of methods leaves (the starting state if it panics). *)
Definition after {A} (m : M A) (c : cache) : cache :=
  match m c with
  | Ret (_, c') => c'
  | Fail _ => c
  end.

(** [NewCache(5)], then [Set("a", "A")]. *)
Definition one : cache := after (Set_ "a" "A") (NewCache 5).

(** [one], then [Delete("a")]. *)
Definition emptied : cache := after (Delete "a") one.

(** [NewCache(3)], then [Set] of "A", "B" and "C": a full cache. *)
Definition full : cache :=
  after (Set_ "A" "1";; Set_ "B" "2";; Set_ "C" "3") (NewCache 3).

(** [NewCache(5)], [Set] of "A", "B" and "C", [Evict()], which removes A
    and leaves the hand on B, then [Delete("B")]: the cache holds C. *)
Definition dangling : cache :=
  after (perform_all [CallSet "A" "1"; CallSet "B" "2"; CallSet "C" "3";
                      CallEvict; CallDelete "B"]) (NewCache 5).

(** [NewCache(1)], [Set("a", "A")], then [Delete("a")]: a cache of
    capacity one without entry. *)
Definition single_emptied : cache :=
  after (perform_all [CallSet "a" "A"; CallDelete "a"]) (NewCache 1).

End Scenario.

(** Further inputs, for the properties beyond the test scenarios. *)

Module Samples.
Import Scenario.
Open Scope string_scope.

(** [full], then [Get("A")]: the oldest entry is visited. *)
Definition touched : cache := after (Get "A") full.


(** [NewCache(1)], then [Set("a", "A")]: a full cache of capacity one. *)
Definition single : cache := after (Set_ "a" "A") (NewCache 1).

(** Three distinct keys with their values. *)
Definition pairs : list (string * string) :=
  [("A", "1"); ("B", "2"); ("C", "3")].

(** A run of calls without [Delete]. *)
Definition calls : list (call (K:=string) (V:=string)) :=
  [CallSet "A" "1"; CallSet "B" "2"; CallGet "A"; CallResize 1; CallEvict;
   CallContains "B"; CallClear].

End Samples.

(** * Facts *)

(** ** [int64] arithmetic *)

Module Int64Facts.
Import Int64.

Lemma wrap_in_range z : in_range z → wrap z = z.
Proof.
  unfold in_range, wrap, min_int, max_int. intros Hz.
  rewrite Z.mod_small; lia.
Qed.

Lemma wrap_range z : in_range (wrap z).
Proof.
  unfold in_range, wrap, min_int, max_int.
  pose proof (Z.mod_pos_bound (z + 2 ^ 63) (2 ^ 64)). lia.
Qed.
End Int64Facts.

(** ** The list model *)

Module GoListFacts.
Import GoList.

Lemma Prev_elem_of l e p : Prev l e = Some p → p ∈ l.
Proof.
  induction l as [|x l IH]; simpl; [done|].
  destruct l as [|y l]; [done|].
  destruct (decide (y = e)) as [->|Hne].
  - intros [= ->]. left.
  - intros Hp. right. by apply IH.
Qed.

Lemma Prev_not_elem l e : e ∉ l → Prev l e = None.
Proof.
  induction l as [|x l IH]; simpl; [done|].
  intros Hx. destruct l as [|y l]; [done|].
  destruct (decide (y = e)) as [->|Hne].
  - exfalso. apply Hx. right. left.
  - apply IH. intros He. apply Hx. by right.
Qed.

Lemma Prev_ne l e p : NoDup l → Prev l e = Some p → p ≠ e.
Proof.
  induction l as [|x l IH]; simpl; [done|].
  intros Hnd. destruct l as [|y l]; [done|].
  apply NoDup_cons in Hnd as [Hx Hnd].
  destruct (decide (y = e)) as [->|Hne].
  - intros [= ->] ->. apply Hx. left.
  - by apply IH.
Qed.

Lemma Prev_front l e : NoDup (e :: l) → Prev (e :: l) e = None.
Proof.
  intros [He Hnd]%NoDup_cons. simpl. destruct l as [|y l]; [done|].
  destruct (decide (y = e)) as [->|Hne].
  - exfalso. apply He. left.
  - apply Prev_not_elem. intros Hin. apply He. by right.
Qed.

Lemma Prev_None_front l e : e ∈ l → Prev l e = None → Front l = Some e.
Proof.
  induction l as [|x l IH]; [by intros ?%elem_of_nil|].
  intros [->|Hin]%elem_of_cons; [done|]. simpl.
  destruct l as [|y l]; [by apply elem_of_nil in Hin|].
  destruct (decide (y = e)) as [->|Hne]; [done|].
  intros Hp. specialize (IH Hin Hp). simpl in IH. congruence.
Qed.

Lemma Back_elem_of l e : Back l = Some e → e ∈ l.
Proof. apply last_Some_elem_of. Qed.

Lemma Back_is_Some l : l ≠ [] → is_Some (Back l).
Proof. apply last_is_Some. Qed.

Lemma elem_of_Remove l e x : x ∈ Remove l e ↔ x ∈ l ∧ x ≠ e.
Proof. unfold Remove. rewrite list_elem_of_filter. tauto. Qed.

Lemma NoDup_Remove l e : NoDup l → NoDup (Remove l e).
Proof. apply NoDup_filter. Qed.

Lemma Remove_not_elem l e : e ∉ l → Remove l e = l.
Proof.
  unfold Remove. induction l as [|x l IH]; [done|].
  intros Hx. rewrite filter_cons.
  destruct (decide (x ≠ e)) as [Hne|Heq].
  - f_equal. apply IH. intros Hin. apply Hx. by right.
  - exfalso. apply Hx. apply dec_stable in Heq as ->. left.
Qed.

Lemma length_Remove l e :
  NoDup l → e ∈ l → S (length (Remove l e)) = length l.
Proof.
  unfold Remove. induction l as [|x l IH]; [by intros _ ?%elem_of_nil|].
  intros [Hx Hnd]%NoDup_cons Hin. rewrite filter_cons.
  destruct (decide (x ≠ e)) as [Hne|Heq]; simpl.
  - f_equal. apply IH; [done|]. by apply elem_of_cons in Hin as [->|Hin].
  - apply dec_stable in Heq as ->. f_equal.
    fold (Remove l e). by rewrite Remove_not_elem.
Qed.
End GoListFacts.

(** ** Running the methods *)

Ltac run :=
  unfold Evict, Clear, init, store_visited, get, modify, load;
  unfold mbind, mret, mthrow, cache_bind, cache_ret, cache_throw;
  simpl.

(** The same without [simpl], for goals in which a method call has to
    stay folded until its equation is used. *)
Ltac step :=
  unfold mbind, mret, cache_bind, cache_ret, get, modify; cbv beta iota.


Section SieveFacts.
Context {K V : Type} `{Countable K} `{Zero K} `{Zero V}.
Implicit Types (c : Cache (K:=K) (V:=V)) (k : K).
Implicit Types (h : gmap nat (nodeEntry (K:=K) (V:=V))).
Implicit Types (n : nodeEntry (K:=K) (V:=V)).

Lemma Get_absent c k :
  keysMap c !! k = None → Get k c = Ret ((zero, Some ErrKeyNotFound), c).
Proof. intros Hk. unfold Get. run. by rewrite Hk. Qed.

Lemma Get_present c k e n :
  keysMap c !! k = Some e → cells c !! e = Some n →
  Get k c = Ret ((value n, None),
                 set_cells (alter (set_visited true) e (cells c)) c).
Proof. intros Hk He. unfold Get. run. rewrite Hk. run. by rewrite He. Qed.

Lemma Delete_absent c k :
  keysMap c !! k = None → Delete k c = Ret ((zero, Some ErrKeyNotFound), c).
Proof. intros Hk. unfold Delete. run. by rewrite Hk. Qed.

Lemma Delete_present c k e n :
  keysMap c !! k = Some e → cells c !! e = Some n →
  Delete k c = Ret ((value n, None),
                    set_q (GoList.Remove (q c) e)
                      (set_keysMap (delete k (keysMap c)) c)).
Proof. intros Hk He. unfold Delete. run. rewrite Hk. run. by rewrite He. Qed.

Lemma Contains_eq c k :
  Contains k c = Ret (bool_decide (is_Some (keysMap c !! k)), c).
Proof. done. Qed.

Lemma evict_empty c :
  size c = 0%Z → evict c = Ret ((zero, Some ErrEmptyCache), c).
Proof. intros Hs. unfold evict. run. by rewrite decide_True. Qed.


(** ** The scan of [evict] *)

Lemma visited_cells_demote h e n :
  h !! e = Some n → visited n = true →
  (base.size (visited_cells (alter (set_visited false) e h))
   < base.size (visited_cells h))%nat.
Proof.
  intros He Hv. unfold visited_cells.
  rewrite <-(insert_id h e n) at 1 by done.
  rewrite alter_insert_eq, map_filter_insert_False by (simpl; congruence).
  rewrite map_filter_delete, map_size_delete_Some.
  - assert (filter (λ p, visited p.2 = true) h !! e = Some n) as Hf
      by (by apply map_lookup_filter_Some).
    destruct (base.size (filter (λ p, visited p.2 = true) h)) eqn:Hsz; [|simpl; lia].
    apply map_size_empty_inv in Hsz. rewrite Hsz in Hf. by rewrite lookup_empty in Hf.
  - exists n. by apply map_lookup_filter_Some.
Qed.

(** The sweep stays inside the list, ends on an unvisited entry and leaves
    every cell as it was up to its visited flag. *)
Lemma sweep_elem_of l h e h' v : sweep l h e h' v → e ∈ l → v ∈ l.
Proof.
  induction 1 as [|h e n p h' v He Hv Hp _ IH|h e n b h' v He Hv Hp Hb _ IH];
    [done|..]; intros _; apply IH.
  - by eapply GoListFacts.Prev_elem_of.
  - by apply GoListFacts.Back_elem_of.
Qed.

Lemma sweep_unvisited l h e h' v :
  sweep l h e h' v → ∃ n, h' !! v = Some n ∧ visited n = false.
Proof. induction 1; eauto. Qed.

Lemma sweep_cells l h e h' v x :
  sweep l h e h' v →
  set_visited false <$> h' !! x = set_visited false <$> h !! x.
Proof.
  induction 1 as [|h e n p h' v He Hv Hp _ IH|h e n b h' v He Hv Hp Hb _ IH];
    [done|..]; rewrite IH, lookup_alter; (case_decide; [subst|done]);
    by destruct (h !! x).
Qed.

Lemma sweep_key l h e h' v x :
  sweep l h e h' v → key <$> h' !! x = key <$> h !! x.
Proof.
  intros Hs. pose proof (sweep_cells _ _ _ _ _ x Hs) as Hc.
  unfold set_visited in Hc.
  destruct (h' !! x), (h !! x); simpl in *; congruence.
Qed.

Lemma sweep_is_Some l h e h' v x :
  sweep l h e h' v → is_Some (h' !! x) ↔ is_Some (h !! x).
Proof.
  intros Hs. pose proof (sweep_cells _ _ _ _ _ x Hs) as Hc.
  rewrite <-!not_eq_None_Some.
  destruct (h' !! x), (h !! x); simpl in *; naive_solver.
Qed.

Lemma sweep_deterministic l h e h1 v1 h2 v2 :
  sweep l h e h1 v1 → sweep l h e h2 v2 → h1 = h2 ∧ v1 = v2.
Proof.
  intros Hs. revert h2 v2.
  induction Hs as [h e n He Hv|h e n p h' v He Hv Hp _ IH
                  |h e n b h' v He Hv Hp Hb _ IH];
    intros h2 v2 Hs2;
    inversion Hs2 as [? ? n2 He2 Hv2|? ? n2 p2 ? ? He2 Hv2 Hp2 Hrest
                     |? ? n2 b2 ? ? He2 Hv2 Hp2 Hb2 Hrest]; subst;
    try done; try (rewrite He in He2; injection He2 as <-; congruence);
    try congruence; apply IH.
  - by replace p with p2 by congruence.
  - by replace b with b2 by congruence.
Qed.

(** The loop of the model computes the sweep, and its iteration bound is
    never reached. *)
Lemma scan_sweep fuel c e :
  e ∈ q c →
  (∀ x, x ∈ q c → is_Some (cells c !! x)) →
  (base.size (visited_cells (cells c)) < fuel)%nat →
  ∃ v h', scan fuel (Some e) c = Ret (v, set_cells h' c) ∧
          sweep (q c) (cells c) e h' v.
Proof.
  revert c e. induction fuel as [|fuel IH]; intros c e He Hcl Hfuel; [lia|].
  destruct (Hcl e He) as [n Hn]. simpl. run. rewrite Hn.
  destruct (visited n) eqn:Hv; simpl.
  - pose proof (visited_cells_demote _ _ _ Hn Hv) as Hlt.
    assert (∀ x, x ∈ q c →
              is_Some (alter (set_visited false) e (cells c) !! x)) as Hcl'
      by (intros x Hx; rewrite lookup_alter_is_Some; by apply Hcl).
    destruct (GoList.Prev (q c) e) as [p|] eqn:Hp; simpl.
    + destruct (IH (set_cells (alter (set_visited false) e (cells c)) c) p)
        as (v & h' & Hscan & Hsweep); simpl;
        [by eapply GoListFacts.Prev_elem_of|done|lia|].
      exists v, h'. rewrite Hscan. split; [done|]. by eapply sweep_pred.
    + destruct (GoListFacts.Back_is_Some (q c)) as [b Hb];
        [by intros Hq; rewrite Hq in He; apply elem_of_nil in He|].
      rewrite Hb.
      destruct (IH (set_cells (alter (set_visited false) e (cells c)) c) b)
        as (v & h' & Hscan & Hsweep); simpl;
        [by apply GoListFacts.Back_elem_of|done|lia|].
      exists v, h'. rewrite Hscan. split; [done|]. by eapply sweep_wrap.
  - exists e, (cells c). split; [by destruct c|]. by eapply sweep_victim.
Qed.

(** Conversely, whenever the rule yields a victim, from any state at all,
    the loop returns that victim and those cells. *)
Lemma sweep_scan l h e h' v :
  sweep l h e h' v →
  ∀ fuel c, q c = l → cells c = h →
    (base.size (visited_cells h) < fuel)%nat →
    scan fuel (Some e) c = Ret (v, set_cells h' c).
Proof.
  induction 1 as [h e n He Hv|h e n p h' v He Hv Hp _ IH
                 |h e n b h' v He Hv Hp Hb _ IH];
    intros fuel c Hq Hc Hfuel; (destruct fuel as [|fuel]; [lia|]);
    simpl; run; subst l h; rewrite He, Hv; simpl.
  - by destruct c.
  - rewrite Hp. simpl.
    rewrite (IH fuel (set_cells (alter (set_visited false) e (cells c)) c));
      try done.
    pose proof (visited_cells_demote _ _ _ He Hv). simpl. lia.
  - rewrite Hp. simpl. rewrite Hb.
    rewrite (IH fuel (set_cells (alter (set_visited false) e (cells c)) c));
      try done.
    pose proof (visited_cells_demote _ _ _ He Hv). simpl. lia.
Qed.

(** No run of the loop exhausts its bound, from any state at all. *)
Lemma scan_fuel_enough fuel c curr :
  (base.size (visited_cells (cells c)) < fuel)%nat →
  scan fuel curr c ≠ Fail FuelExhausted.
Proof.
  revert c curr. induction fuel as [|fuel IH]; intros c curr Hfuel; [lia|].
  simpl. destruct curr as [e|]; [|done]. run.
  destruct (cells c !! e) as [n|] eqn:Hn; [|done].
  destruct (visited n) eqn:Hv; simpl; [|done].
  apply IH. simpl. pose proof (visited_cells_demote _ _ _ Hn Hv). lia.
Qed.

(** The scan touches nothing but the cells. *)
Lemma scan_frame fuel c curr v c' :
  scan fuel curr c = Ret (v, c') → c' = set_cells (cells c') c.
Proof.
  revert c curr. induction fuel as [|fuel IH]; intros c curr; [done|].
  simpl. destruct curr as [e|]; [|done]. run.
  destruct (cells c !! e) as [n|] eqn:Hn; [|done].
  destruct (visited n) eqn:Hv; simpl.
  - intros Hs. by apply IH in Hs.
  - intros [= <- <-]. by destruct c.
Qed.

(** ** Consequences of the invariants *)

Lemma wf_live c e :
  wf c → e ∈ q c → ∃ n, cells c !! e = Some n ∧ keysMap c !! key n = Some e.
Proof.
  intros (_ & Hlive & _) He.
  rewrite Forall_forall in Hlive. specialize (Hlive e He). unfold live in Hlive.
  destruct (cells c !! e) as [n|]; [|done]. by exists n.
Qed.

Lemma wf_cells c e : wf c → e ∈ q c → is_Some (cells c !! e).
Proof. intros Hwf He. destruct (wf_live c e Hwf He) as (n & -> & _). by eexists. Qed.

Lemma wf_indexed c k e :
  wf c → keysMap c !! k = Some e →
  e ∈ q c ∧ ∃ n, cells c !! e = Some n ∧ key n = k.
Proof.
  intros (_ & _ & Hidx & _) Hk. destruct (Hidx k e Hk) as [He Hkey].
  split; [done|]. destruct (cells c !! e) as [n|]; [|done].
  exists n. split; [done|]. by injection Hkey.
Qed.

Lemma wf_length c : wf c → size c = Z.of_nat (length (q c)).
Proof. by intros (_ & _ & _ & _ & Hsz & _). Qed.

Lemma wf_nonempty c : wf c → size c ≠ 0%Z → q c ≠ [].
Proof. intros Hwf Hsz Hq. apply wf_length in Hwf. rewrite Hq in Hwf. done. Qed.

Lemma wf_start c :
  wf c → size c ≠ 0%Z →
  ∃ start, or_back (q c) (hand c) = Some start ∧ start ∈ q c.
Proof.
  intros Hwf Hsz. pose proof Hwf as (_ & _ & _ & Hh & _).
  unfold hand_linked in Hh. destruct (hand c) as [h|]; simpl; [by exists h|].
  destruct (GoListFacts.Back_is_Some (q c)) as [b Hb]; [by apply wf_nonempty|].
  exists b. split; [done|]. by apply GoListFacts.Back_elem_of.
Qed.

(** ** [evict] *)

Lemma evict_nonempty c v n h' :
  size c ≠ 0%Z →
  scan (scan_fuel c) (or_back (q c) (hand c)) c = Ret (v, set_cells h' c) →
  h' !! v = Some n →
  evict c = Ret ((key n, None), evicted c v n h').
Proof.
  intros Hsz Hscan Hn. unfold evict.
  step. rewrite decide_False, Hscan by done. run. by rewrite Hn.
Qed.

Lemma evict_follows_sweep c start v n h' :
  size c ≠ 0%Z →
  or_back (q c) (hand c) = Some start →
  sweep (q c) (cells c) start h' v → h' !! v = Some n →
  evict c = Ret ((key n, None), evicted c v n h').
Proof.
  intros Hsz Hstart Hsweep Hn. apply evict_nonempty; [done| |done].
  rewrite Hstart. apply (sweep_scan _ _ _ _ _ Hsweep); [done|done|].
  unfold scan_fuel. lia.
Qed.

Lemma evict_sweep c :
  wf c → size c ≠ 0%Z →
  ∃ start v n h',
    or_back (q c) (hand c) = Some start ∧
    sweep (q c) (cells c) start h' v ∧
    h' !! v = Some n ∧ visited n = false ∧
    v ∈ q c ∧ keysMap c !! key n = Some v ∧
    evict c = Ret ((key n, None), evicted c v n h').
Proof.
  intros Hwf Hsz. destruct (wf_start c Hwf Hsz) as (start & Hstart & Hin).
  destruct (scan_sweep (scan_fuel c) c start Hin) as (v & h' & Hscan & Hsweep);
    [intros x; by apply wf_cells|unfold scan_fuel; lia|].
  destruct (sweep_unvisited _ _ _ _ _ Hsweep) as (n & Hn & Hv).
  pose proof (sweep_elem_of _ _ _ _ _ Hsweep Hin) as Hvin.
  exists start, v, n, h'. split_and!; try done.
  - destruct (wf_live c v Hwf Hvin) as (n0 & Hn0 & Hidx).
    pose proof (sweep_key _ _ _ _ _ v Hsweep) as Hkey.
    rewrite Hn, Hn0 in Hkey. injection Hkey as ->. done.
  - apply evict_nonempty; [done| |done]. by rewrite Hstart.
Qed.

Lemma evicted_wf c start v n h' :
  wf c → size c ≠ 0%Z →
  sweep (q c) (cells c) start h' v → start ∈ q c → h' !! v = Some n →
  wf (evicted c v n h') ∧ size (evicted c v n h') = (size c - 1)%Z.
Proof.
  intros Hwf Hsz Hsweep Hin Hn.
  pose proof (sweep_elem_of _ _ _ _ _ Hsweep Hin) as Hvin.
  pose proof Hwf as (Hnd & Hlive & Hidx & Hh & Hlen & Hmax).
  pose proof (GoListFacts.length_Remove (q c) v Hnd Hvin) as HlenR.
  assert (Int64.sub (size c) 1 = (size c - 1)%Z) as Hsub.
  { apply Int64Facts.wrap_in_range.
    unfold Int64.in_range, Int64.min_int, Int64.max_int in *. lia. }
  assert (key <$> cells c !! v = Some (key n)) as Hkv.
  { rewrite <-(sweep_key _ _ _ _ _ v Hsweep), Hn. done. }
  split; [|done]. unfold wf, evicted; simpl. split_and!.
  - by apply GoListFacts.NoDup_Remove.
  - rewrite Forall_forall. intros x [Hx Hne]%GoListFacts.elem_of_Remove.
    destruct (wf_live c x Hwf Hx) as (nx & Hnx & Hkx).
    unfold live; simpl.
    pose proof (sweep_key _ _ _ _ _ x Hsweep) as Hkey. rewrite Hnx in Hkey.
    destruct (h' !! x) as [nx'|]; [|done]. simpl in *. injection Hkey as Hkey.
    rewrite Hkey, lookup_delete_ne; [done|].
    intros Heq. rewrite <-Heq in Hkx.
    destruct (wf_live c v Hwf Hvin) as (nv & Hnv & Hkv').
    rewrite Hnv in Hkv. injection Hkv as Hkv. congruence.
  - intros k e [Hne Hk]%lookup_delete_Some.
    destruct (Hidx k e Hk) as [He Hke]. unfold indexed; simpl. split.
    + apply GoListFacts.elem_of_Remove. split; [done|]. intros ->. congruence.
    + by rewrite (sweep_key _ _ _ _ _ e Hsweep).
  - unfold hand_linked; simpl.
    destruct (GoList.Prev (q c) v) as [p|] eqn:Hp; [|done].
    apply GoListFacts.elem_of_Remove. split; [by eapply GoListFacts.Prev_elem_of|].
    by eapply GoListFacts.Prev_ne.
  - lia.
  - unfold Int64.max_int in *. lia.
Qed.

(** ** The invariants are kept *)

Lemma NewCache_wf (cap : Z) : wf (NewCache (K:=K) (V:=V) cap).
Proof.
  unfold wf, NewCache, hand_linked, Int64.max_int; simpl.
  split_and!; try done. apply NoDup_nil_2.
Qed.

Lemma init_wf c :
  wf (mkCache (K:=K) (V:=V) (capacity c) 0 GoList.New ∅ None ∅).
Proof. apply (NewCache_wf (capacity c)). Qed.

(** Flipping visited flags does not disturb them. *)
Lemma flags_wf c h' :
  (∀ x, key <$> h' !! x = key <$> cells c !! x) →
  wf c → wf (set_cells h' c).
Proof.
  intros Hkey (Hnd & Hlive & Hidx & Hh & Hlen & Hmax).
  unfold wf; simpl. split_and!; try done.
  - rewrite Forall_forall in *. intros x Hx. specialize (Hlive x Hx).
    unfold live in *; simpl. specialize (Hkey x).
    destruct (h' !! x), (cells c !! x); simpl in *; try done.
    injection Hkey as ->. done.
  - intros k e Hk. destruct (Hidx k e Hk) as [He Hke].
    split; [done|]. simpl. by rewrite Hkey.
Qed.

Lemma alter_visited_key h b e x :
  key <$> alter (set_visited b) e h !! x = key <$> h !! x.
Proof.
  rewrite lookup_alter. case_decide; [subst|done]. by destruct (h !! x).
Qed.

Lemma fresh_cell c : cells c !! fresh (dom (cells c)) = None.
Proof. apply not_elem_of_dom, is_fresh. Qed.

Lemma fresh_unlinked c : wf c → fresh (dom (cells c)) ∉ q c.
Proof.
  intros Hwf Hin. apply (wf_cells c _ Hwf) in Hin as [n Hn].
  by rewrite fresh_cell in Hn.
Qed.

Lemma inserted_wf c k v :
  wf c → keysMap c !! k = None → (size c < Int64.max_int)%Z →
  wf (inserted k v c) ∧ size (inserted k v c) = (size c + 1)%Z.
Proof.
  intros Hwf Hk Hlt. pose proof Hwf as (Hnd & Hlive & Hidx & Hh & Hlen & Hmax).
  pose proof (fresh_cell c) as Hfc. pose proof (fresh_unlinked c Hwf) as Hfq.
  assert (Int64.add (size c) 1 = (size c + 1)%Z) as Hadd.
  { apply Int64Facts.wrap_in_range.
    unfold Int64.in_range, Int64.min_int, Int64.max_int in *. lia. }
  split; [|done]. unfold wf, inserted; simpl.
  set (e := fresh (dom (cells c))) in *. split_and!.
  - by apply NoDup_cons.
  - apply Forall_cons. split.
    + unfold live; simpl. rewrite lookup_insert_eq; simpl.
      by rewrite lookup_insert_eq.
    + rewrite Forall_forall. intros x Hx.
      destruct (wf_live c x Hwf Hx) as (nx & Hnx & Hkx).
      unfold live; simpl.
      rewrite lookup_insert_ne by (intros ->; done). rewrite Hnx; simpl.
      rewrite lookup_insert_ne by (intros ->; congruence). done.
  - intros k' e' Hk'. unfold indexed; simpl.
    apply lookup_insert_Some in Hk' as [[<- <-]|[Hne Hk']].
    + split; [left|]. by rewrite lookup_insert_eq.
    + destruct (Hidx k' e' Hk') as [He' Hke']. split; [by right|].
      rewrite lookup_insert_ne; [done|]. intros <-. done.
  - unfold hand_linked in *; simpl. destruct (hand c); [by right|done].
  - rewrite Hadd, Hlen. simpl. lia.
  - rewrite Hadd. lia.
Qed.

(** ** [Set] *)

Lemma Set_disabled c k v : (capacity c <= 0)%Z → Set_ k v c = Ret (tt, c).
Proof. intros Hc. unfold Set_. step. by rewrite decide_True. Qed.

Lemma Set_present c k v e n :
  (capacity c > 0)%Z → keysMap c !! k = Some e → cells c !! e = Some n →
  Set_ k v c = Ret (tt, set_cells (alter (set_visited true) e (cells c)) c).
Proof.
  intros Hc Hk He. unfold Set_. step.
  rewrite decide_False by lia. by rewrite (Get_present c k e n).
Qed.

Lemma Set_absent_room c k v :
  (capacity c > 0)%Z → keysMap c !! k = None → size c ≠ capacity c →
  Set_ k v c = Ret (tt, inserted k v c).
Proof.
  intros Hc Hk Hsz. unfold Set_. step.
  rewrite decide_False by lia. rewrite Get_absent by done.
  by rewrite decide_False.
Qed.

Lemma Set_absent_full c k v r c1 :
  (capacity c > 0)%Z → keysMap c !! k = None → size c = capacity c →
  evict c = Ret (r, c1) →
  Set_ k v c = Ret (tt, inserted k v c1).
Proof.
  intros Hc Hk Hsz Hev. unfold Set_. step.
  rewrite decide_False by lia. rewrite Get_absent by done.
  by rewrite decide_True, Hev.
Qed.

Lemma Set_absent_full_fail c k v f :
  (capacity c > 0)%Z → keysMap c !! k = None → size c = capacity c →
  evict c = Fail f → Set_ k v c = Fail f.
Proof.
  intros Hc Hk Hsz Hev. unfold Set_. step.
  rewrite decide_False by lia. rewrite Get_absent by done.
  by rewrite decide_True, Hev.
Qed.

(** ** Repeated eviction and [Resize] *)

Lemma resize_loop_evict_times fuel cnt acc c :
  (cnt ≤ Z.of_nat fuel)%Z → (cnt ≤ Int64.max_int)%Z →
  resize_loop fuel cnt acc c =
    match evict_times (Z.to_nat cnt) c with
    | Ret (ks, c') => Ret (acc ++ ks, c')
    | Fail f => Fail f
    end.
Proof.
  revert cnt acc c. induction fuel as [|fuel IH]; intros cnt acc c Hfuel Hmax.
  - simpl. rewrite decide_False by lia.
    replace (Z.to_nat cnt) with 0%nat by lia. simpl. run. by rewrite app_nil_r.
  - simpl. destruct (decide (cnt > 0)%Z) as [Hpos|Hneg].
    + assert (Int64.sub cnt 1 = (cnt - 1)%Z) as ->.
      { apply Int64Facts.wrap_in_range.
        unfold Int64.in_range, Int64.min_int, Int64.max_int in *. lia. }
      replace (Z.to_nat cnt) with (S (Z.to_nat (cnt - 1))) by lia.
      simpl. step. destruct (evict c) as [[[k err] c1]|f]; [|done].
      rewrite IH by lia.
      destruct (evict_times (Z.to_nat (cnt - 1)) c1) as [[ks c2]|f]; [|done].
      destruct err; [done|]. by rewrite <-app_assoc.
    + replace (Z.to_nat cnt) with 0%nat by lia. simpl. run. by rewrite app_nil_r.
Qed.

Lemma Resize_grow c (n : Z) :
  (n >= capacity c)%Z → Resize n c = Ret ([], set_capacity n c).
Proof. intros Hn. unfold Resize. step. by rewrite decide_True. Qed.

Lemma Resize_shrink c (n : Z) :
  (n < capacity c)%Z →
  Resize n c =
    match evict_times (Z.to_nat (Int64.sub (size c) n)) c with
    | Ret (ks, c') => Ret (ks, set_capacity n c')
    | Fail f => Fail f
    end.
Proof.
  intros Hn. unfold Resize, Size. step. rewrite decide_False by lia.
  rewrite resize_loop_evict_times;
    [|lia|apply (Int64Facts.wrap_range (size c - n))].
  by destruct (evict_times _ c) as [[ks c']|f].
Qed.

(** On a state that satisfies the invariants [evict] returns, and keeps
    them. *)
Lemma evict_wf c :
  wf c →
  ∃ r c', evict c = Ret (r, c') ∧ wf c' ∧ capacity c' = capacity c ∧
    ((size c = 0%Z ∧ r.2 = Some ErrEmptyCache ∧ c' = c) ∨
     (size c ≠ 0%Z ∧ r.2 = None ∧ size c' = (size c - 1)%Z ∧
      S (length (q c')) = length (q c))).
Proof.
  intros Hwf. destruct (decide (size c = 0%Z)) as [Hz|Hnz].
  - exists (zero, Some ErrEmptyCache), c. rewrite evict_empty by done.
    split_and!; try done. by left.
  - destruct (evict_sweep c Hwf Hnz)
      as (start & v & n & h' & Hstart & Hsweep & Hn & Hv & Hvin & Hkv & Hev).
    destruct (wf_start c Hwf Hnz) as (start' & Hstart' & Hin).
    rewrite Hstart in Hstart'. injection Hstart' as <-.
    destruct (evicted_wf c start v n h' Hwf Hnz Hsweep Hin Hn) as [Hwf' Hsz'].
    exists (key n, None), (evicted c v n h'). split_and!; try done.
    right. split_and!; try done. simpl.
    apply GoListFacts.length_Remove; [by destruct Hwf|done].
Qed.

Lemma evict_times_wf m c :
  wf c →
  ∃ ks c', evict_times m c = Ret (ks, c') ∧ wf c' ∧
    capacity c' = capacity c ∧
    length ks = (m `min` length (q c))%nat ∧
    (length (q c') + length ks = length (q c))%nat.
Proof.
  revert c. induction m as [|m IH]; intros c Hwf.
  - exists [], c. by split_and!.
  - destruct (evict_wf c Hwf) as (r & c1 & Hev & Hwf1 & Hcap1 & Hcase).
    destruct (IH c1 Hwf1) as (ks & c2 & Hks & Hwf2 & Hcap2 & Hlen & Hq).
    cbn [evict_times]. step. rewrite Hev. destruct r as [k err]. rewrite Hks.
    cbn [snd] in Hcase.
    destruct Hcase as [(Hz & -> & ->)|(Hnz & -> & Hsz & Hq1)].
    + exists ks, c2. split_and!; try done; try congruence.
      rewrite Hlen. apply wf_length in Hwf. lia.
    + exists (k :: ks), c2. split_and!; try done; try congruence;
        cbn [length]; lia.
Qed.

(** ** The loops of the model always have enough iterations *)

Lemma evict_terminates c : evict c ≠ Fail FuelExhausted.
Proof.
  unfold evict. step. case_decide; [done|].
  pose proof (scan_fuel_enough (scan_fuel c) c (or_back (q c) (hand c))) as Hs.
  destruct (scan (scan_fuel c) (or_back (q c) (hand c)) c) as [[v c1]|f] eqn:Hscan.
  - run. by destruct (cells c1 !! v).
  - intros [= ->]. apply Hs; [unfold scan_fuel; lia|done].
Qed.

Lemma evict_times_terminates (n : nat) c : evict_times n c ≠ Fail FuelExhausted.
Proof.
  revert c. induction n as [|n IH]; intros c; [done|].
  cbn [evict_times]. step. pose proof (evict_terminates c) as He.
  destruct (evict c) as [[[k err] c1]|f]; [|congruence].
  specialize (IH c1). by destruct (evict_times n c1) as [[ks c2]|f'].
Qed.

Lemma Resize_terminates (n : Z) c : Resize n c ≠ Fail FuelExhausted.
Proof.
  destruct (decide (n >= capacity c)%Z) as [Hge|Hlt].
  - by rewrite Resize_grow.
  - rewrite Resize_shrink by lia.
    pose proof (evict_times_terminates (Z.to_nat (Int64.sub (size c) n)) c).
    by destruct (evict_times _ c) as [[ks c']|f].
Qed.

Lemma Set_terminates k v c : Set_ k v c ≠ Fail FuelExhausted.
Proof.
  destruct (decide (capacity c <= 0)%Z) as [Hc|Hc]; [by rewrite Set_disabled|].
  destruct (keysMap c !! k) as [e|] eqn:Hk.
  - unfold Set_. step. rewrite decide_False by done. unfold Get. step.
    rewrite Hk. run. by destruct (cells c !! e).
  - destruct (decide (size c = capacity c)) as [Hsz|Hsz].
    + pose proof (evict_terminates c) as He.
      destruct (evict c) as [[r c1]|f] eqn:Hev.
      * by rewrite (Set_absent_full c k v r c1) by (done || lia).
      * rewrite (Set_absent_full_fail c k v f) by (done || lia). congruence.
    + by rewrite Set_absent_room by (done || lia).
Qed.

(** ** When the methods return an error *)

Lemma Get_error c k r e c' :
  Get k c = Ret ((r, Some e), c') → keysMap c !! k = None.
Proof.
  unfold Get. run. destruct (keysMap c !! k) as [ele|]; [|done].
  run. by destruct (cells c !! ele).
Qed.

Lemma Delete_error c k r e c' :
  Delete k c = Ret ((r, Some e), c') → keysMap c !! k = None.
Proof.
  unfold Delete. run. destruct (keysMap c !! k) as [ele|]; [|done].
  run. by destruct (cells c !! ele).
Qed.

Lemma evict_error c k e c' :
  evict c = Ret ((k, Some e), c') → size c = 0%Z.
Proof.
  unfold evict. step. case_decide; [done|].
  destruct (scan (scan_fuel c) (or_back (q c) (hand c)) c) as [[x c1]|f]; [|done].
  run. by destruct (cells c1 !! x).
Qed.

(** [Delete] never touches [size]. *)
Lemma Delete_size c k r c' : Delete k c = Ret (r, c') → size c' = size c.
Proof.
  unfold Delete. run. destruct (keysMap c !! k) as [ele|]; [|by intros [= _ <-]].
  run. destruct (cells c !! ele); [|done]. by intros [= _ <-].
Qed.

(** ** Runs without [Delete]

    Every method but [Delete] keeps the invariants, so a run of calls that
    never deletes stays within them; [size] grows by at most one per call,
    which keeps it away from the [int64] bound. *)

Lemma set_capacity_wf c (cap : Z) : wf c → wf (set_capacity cap c).
Proof. done. Qed.

Lemma Get_wf c k :
  wf c → ∃ r c', Get k c = Ret (r, c') ∧ wf c' ∧ size c' = size c.
Proof.
  intros Hwf. destruct (keysMap c !! k) as [e|] eqn:Hk.
  - destruct (wf_indexed c k e Hwf Hk) as (_ & n & Hn & _).
    rewrite (Get_present c k e n) by done. do 2 eexists. split_and!; try done.
    apply flags_wf; [|done]. intros x. apply alter_visited_key.
  - rewrite Get_absent by done. by do 2 eexists.
Qed.

Lemma Set_wf c k (v : V) :
  wf c → (size c < Int64.max_int)%Z →
  ∃ c', Set_ k v c = Ret (tt, c') ∧ wf c' ∧ (size c' ≤ size c + 1)%Z.
Proof.
  intros Hwf Hlt. pose proof (wf_length c Hwf) as Hlen.
  destruct (decide (capacity c <= 0)%Z) as [Hc|Hc].
  { rewrite Set_disabled by done. eexists. split_and!; try done. lia. }
  destruct (keysMap c !! k) as [e|] eqn:Hk.
  { destruct (wf_indexed c k e Hwf Hk) as (_ & n & Hn & _).
    rewrite (Set_present c k v e n) by (done || lia).
    eexists. split_and!; try done; [|simpl; lia].
    apply flags_wf; [|done]. intros x. apply alter_visited_key. }
  destruct (decide (size c = capacity c)) as [Hsz|Hsz].
  - destruct (evict_wf c Hwf) as (r & c1 & Hev & Hwf1 & _ & Hcase).
    destruct Hcase as [(Hz & _)|(_ & _ & Hsz1 & _)]; [lia|].
    assert (keysMap c1 !! k = None) as Hk1.
    { assert (size c ≠ 0%Z) as Hnz by lia.
      destruct (evict_sweep c Hwf Hnz) as (? & x & n & h' & _ & _ & _ & _ & _ & _ & Hev').
      rewrite Hev' in Hev. injection Hev as _ <-. simpl.
      apply lookup_delete_None. by right. }
    rewrite (Set_absent_full c k v r c1) by (done || lia).
    destruct (inserted_wf c1 k v Hwf1 Hk1) as [Hwf' Hsz']; [lia|].
    eexists. split_and!; try done. lia.
  - rewrite Set_absent_room by (done || lia).
    destruct (inserted_wf c k v Hwf Hk Hlt) as [Hwf' Hsz'].
    eexists. split_and!; try done. lia.
Qed.

Lemma Resize_wf c (newCapacity : Z) :
  wf c →
  ∃ ks c', Resize newCapacity c = Ret (ks, c') ∧ wf c' ∧ (size c' ≤ size c)%Z.
Proof.
  intros Hwf. destruct (decide (newCapacity >= capacity c)%Z) as [Hge|Hlt].
  - rewrite Resize_grow by done. do 2 eexists. split_and!; try done.
  - rewrite Resize_shrink by lia.
    destruct (evict_times_wf (Z.to_nat (Int64.sub (size c) newCapacity)) c Hwf)
      as (ks & c' & -> & Hwf' & _ & _ & Hq).
    do 2 eexists. split_and!; try done. simpl.
    apply wf_length in Hwf, Hwf'. lia.
Qed.

Lemma perform_wf c (o : call) :
  wf c → is_Delete o = false → (size c < Int64.max_int)%Z →
  ∃ c', perform o c = Ret (tt, c') ∧ wf c' ∧ (size c' ≤ size c + 1)%Z.
Proof.
  intros Hwf Hnd Hlt. pose proof (wf_length c Hwf) as Hlen.
  destruct o as [k v|k|k|k| |n| ]; try done; cbn [perform].
  - by apply Set_wf.
  - destruct (Get_wf c k Hwf) as (r & c' & Hget & Hwf' & Hsz).
    step. rewrite Hget. eexists. split_and!; try done. lia.
  - step. eexists. split_and!; try done. lia.
  - destruct (evict_wf c Hwf) as (r & c' & Hev & Hwf' & _ & Hcase).
    unfold Evict. step. rewrite Hev. eexists. split_and!; try done.
    destruct Hcase as [(_ & _ & ->)|(_ & _ & -> & _)]; lia.
  - destruct (Resize_wf c n Hwf) as (ks & c' & Hres & Hwf' & Hsz).
    step. rewrite Hres. eexists. split_and!; try done. lia.
  - eexists. split_and!; [done|apply init_wf|simpl; lia].
Qed.

Lemma perform_all_wf (l : list call) c :
  wf c → Forall (λ o, is_Delete o = false) l →
  (size c + Z.of_nat (length l) ≤ Int64.max_int)%Z →
  ∃ c', perform_all l c = Ret (tt, c') ∧ wf c'.
Proof.
  intros Hwf Hl. revert c Hwf.
  induction Hl as [|o l Ho Hl IH]; intros c Hwf Hbound.
  - by exists c.
  - cbn [length] in Hbound.
    destruct (perform_wf c o Hwf Ho) as (c1 & Hp & Hwf1 & Hsz1); [lia|].
    destruct (IH c1 Hwf1) as (c' & Hall & Hwf'); [lia|].
    exists c'. split; [|done]. cbn [perform_all]. step. by rewrite Hp.
Qed.

(** ** What the invariants give the accessors *)

Lemma wf_index_list c : wf c → (map_to_list (keysMap c)).*2 ≡ₚ q c.
Proof.
  intros Hwf. apply NoDup_Permutation.
  - apply NoDup_fmap_2_strong; [|apply NoDup_map_to_list].
    intros [k1 e1] [k2 e2] Hk1%elem_of_map_to_list Hk2%elem_of_map_to_list Heq.
    simpl in Heq. subst e2.
    destruct (wf_indexed c k1 e1 Hwf Hk1) as (_ & n1 & Hn1 & <-).
    destruct (wf_indexed c k2 e1 Hwf Hk2) as (_ & n2 & Hn2 & <-).
    congruence.
  - by destruct Hwf.
  - intros e. rewrite list_elem_of_fmap. split.
    + intros ([k e'] & -> & Hin%elem_of_map_to_list).
      by destruct (wf_indexed c k e' Hwf Hin).
    + intros He. destruct (wf_live c e Hwf He) as (n & Hn & Hk).
      exists (key n, e). split; [done|]. by apply elem_of_map_to_list.
Qed.

Lemma wf_Keys c :
  wf c →
  Z.of_nat (length (Keys c)) = Size c ∧
  NoDup (Keys c) ∧
  ∀ k, k ∈ Keys c ↔ ∃ e n, e ∈ q c ∧ cells c !! e = Some n ∧ key n = k.
Proof.
  intros Hwf. unfold Keys, Size. split_and!.
  - rewrite (wf_length c Hwf), <-(wf_index_list c Hwf), !length_fmap. done.
  - apply NoDup_fst_map_to_list.
  - intros k. rewrite list_elem_of_fmap. split.
    + intros ([k' e] & -> & Hin%elem_of_map_to_list).
      destruct (wf_indexed c k' e Hwf Hin) as (He & n & Hn & Hk). by exists e, n.
    + intros (e & n & He & Hn & <-).
      destruct (wf_live c e Hwf He) as (n' & Hn' & Hk).
      exists (key n, e). split; [done|]. apply elem_of_map_to_list. congruence.
Qed.

Lemma items_of_index c (l : list (K * nat)) :
  (∀ k e, (k, e) ∈ l → is_Some (cells c !! e)) →
  ∃ items, items_of l c = Ret (items, c) ∧ Key <$> items = l.*1.
Proof.
  induction l as [|[k e] l IH]; intros Hl; [by exists []|].
  destruct (Hl k e) as [n Hn]; [left|].
  destruct IH as (items & Hitems & Hkeys); [intros ???; eapply Hl; by right|].
  exists (mkItem k (value n) :: items). split.
  - simpl. run. rewrite Hn. by rewrite Hitems.
  - by rewrite !fmap_cons, Hkeys.
Qed.

Lemma wf_Items c :
  wf c → ∃ items, Items c = Ret (items, c) ∧ Key <$> items = Keys c.
Proof.
  intros Hwf. unfold Items. step. apply items_of_index.
  intros k e Hin%elem_of_map_to_list.
  destruct (wf_indexed c k e Hwf Hin) as (_ & n & -> & _). by eexists.
Qed.

(** A run without [Delete], started on a new cache, ends in a state in
    which [Size()] is the number of keys and [Evict] cannot panic: it
    returns [ErrEmptyCache] when no entry is left and evicts otherwise. *)
Lemma run_without_Delete (cap : Z) (l : list call) :
  Forall (λ o, is_Delete o = false) l →
  (Z.of_nat (length l) ≤ Int64.max_int)%Z →
  ∃ c, perform_all l (NewCache cap) = Ret (tt, c) ∧ wf c ∧
       Z.of_nat (length (Keys c)) = Size c ∧
       (q c = [] → Evict c = Ret ((zero, Some ErrEmptyCache), c)) ∧
       (q c ≠ [] → ∃ k c', Evict c = Ret ((k, None), c')).
Proof.
  intros Hl Hlen.
  destruct (perform_all_wf l (NewCache cap) (NewCache_wf cap) Hl)
    as (c & Hrun & Hwf); [simpl; lia|].
  exists c. split_and!; try done.
  - by destruct (wf_Keys c Hwf).
  - intros Hq. apply evict_empty. rewrite (wf_length c Hwf), Hq. done.
  - intros Hq. assert (size c ≠ 0%Z) as Hsz.
    { rewrite (wf_length c Hwf). destruct (q c); [done|]. simpl. lia. }
    destruct (evict_sweep c Hwf Hsz) as (? & v & n & h' & _ & _ & _ & _ & _ & _ & Hev).
    by exists (key n), (evicted c v n h').
Qed.

(** ** The statements of the specification *)

Lemma alter_Some h e n (f : nodeEntry → nodeEntry) :
  h !! e = Some n → alter f e h = <[e := f n]> h.
Proof. intros He. by rewrite <-(insert_id h e n) at 1; [rewrite alter_insert_eq|]. Qed.

(** [Evict] in closed form.  On a cache whose [size] is not zero, [Evict]
    starts its scan at the hand if it is set and at the back of the list otherwise; the scan
    follows the sweep rule (a visited entry is demoted and the scan moves to
    the predecessor, wrapping to the back when there is none) and stops on
    the first unvisited entry, the victim.  The hand becomes the predecessor
    of the victim, the victim is unlinked from the list, its key leaves the
    index, [size] is decremented and the key of the victim is returned with
    a nil error.  On a cache that satisfies the data-model invariants the
    scan always finds its victim, a linked entry registered in the index
    under its key; the new hand is nil exactly when the victim was the
    front, and the decrement does not wrap. *)
Theorem evict_spec c :
  size c ≠ 0%Z →
  (∀ start v n h',
     match hand c with
     | Some hd => start = hd
     | None => GoList.Back (q c) = Some start
     end →
     sweep (q c) (cells c) start h' v → h' !! v = Some n →
     Evict c = Ret ((key n, None),
                    {| capacity := capacity c;
                       size := Int64.sub (size c) 1;
                       q := GoList.Remove (q c) v;
                       keysMap := delete (key n) (keysMap c);
                       hand := GoList.Prev (q c) v;
                       cells := h' |})) ∧
  (wf c →
   ∃ start v n h',
     match hand c with
     | Some hd => start = hd
     | None => GoList.Back (q c) = Some start
     end ∧
     sweep (q c) (cells c) start h' v ∧
     v ∈ q c ∧ h' !! v = Some n ∧ visited n = false ∧
     keysMap c !! key n = Some v ∧
     (GoList.Prev (q c) v = None ↔ GoList.Front (q c) = Some v) ∧
     Evict c = Ret ((key n, None),
                    {| capacity := capacity c;
                       size := size c - 1;
                       q := GoList.Remove (q c) v;
                       keysMap := delete (key n) (keysMap c);
                       hand := GoList.Prev (q c) v;
                       cells := h' |})).
Proof.
  intros Hsz. split.
  - intros start v n h' Hstart Hsweep Hn.
    apply (evict_follows_sweep c start); try done.
    unfold or_back. destruct (hand c); [by subst|done].
  - intros Hwf.
    destruct (evict_sweep c Hwf Hsz)
      as (start & v & n & h' & Hstart & Hsweep & Hn & Hv & Hvin & Hkv & Hev).
    destruct (wf_start c Hwf Hsz) as (start' & Hstart' & Hin).
    rewrite Hstart in Hstart'. injection Hstart' as <-.
    destruct (evicted_wf c start v n h' Hwf Hsz Hsweep Hin Hn) as [_ Hsz'].
    exists start, v, n, h'. split_and!; try done.
    + unfold or_back in Hstart. destruct (hand c); [by injection Hstart|done].
    + split; [intros Hp; by apply GoListFacts.Prev_None_front|].
      intros Hf. destruct (q c) as [|x l] eqn:Hq; [done|].
      injection Hf as ->. apply GoListFacts.Prev_front.
      destruct Hwf as [Hnd _]. by rewrite Hq in Hnd.
    + unfold Evict. rewrite Hev. unfold evicted in *. simpl in Hsz'.
      by rewrite Hsz'.
Qed.

(** [Set] in closed form.  On a cache whose capacity is not positive
    [Set] changes nothing.  With a positive capacity: a key that is present gets its entry marked
    visited and keeps its stored value; a key that is absent is inserted,
    after one eviction when [size] equals [capacity], as a new unvisited
    entry at the front of the list, registered in the index, and [size] is
    incremented (the result of the eviction is ignored; on a cache that
    satisfies the data-model invariants it is the removal of one entry). *)
Theorem Set_spec c k (v : V) :
  ((capacity c <= 0)%Z → Set_ k v c = Ret (tt, c)) ∧
  ((capacity c > 0)%Z →
   (∀ e n, keysMap c !! k = Some e → cells c !! e = Some n →
      Set_ k v c =
        Ret (tt, set_cells (<[e := mkEntry true (key n) (value n)]> (cells c)) c)) ∧
   (keysMap c !! k = None → size c ≠ capacity c →
      Set_ k v c = Ret (tt, inserted k v c)) ∧
   (keysMap c !! k = None → size c = capacity c →
      ∀ r c1, evict c = Ret (r, c1) → Set_ k v c = Ret (tt, inserted k v c1)) ∧
   (keysMap c !! k = None → size c = capacity c → wf c →
      ∃ victim c1,
        evict c = Ret ((victim, None), c1) ∧
        S (length (q c1)) = length (q c) ∧
        size c1 = (size c - 1)%Z ∧
        keysMap c1 !! k = None ∧
        Set_ k v c = Ret (tt, inserted k v c1))) ∧
  (∀ c1, ∃ e,
     cells c1 !! e = None ∧
     GoList.Front (q (inserted k v c1)) = Some e ∧
     q (inserted k v c1) = e :: q c1 ∧
     cells (inserted k v c1) = <[e := mkEntry false k v]> (cells c1) ∧
     keysMap (inserted k v c1) = <[k := e]> (keysMap c1) ∧
     size (inserted k v c1) = Int64.add (size c1) 1 ∧
     ((size c1 < Int64.max_int)%Z → wf c1 →
      size (inserted k v c1) = (size c1 + 1)%Z)).
Proof.
  split_and!.
  - apply Set_disabled.
  - intros Hc. split_and!.
    + intros e n Hk He. rewrite (Set_present c k v e n) by done.
      by rewrite (alter_Some _ _ n).
    + intros Hk Hsz. by apply Set_absent_room.
    + intros Hk Hsz r c1 Hev. by apply (Set_absent_full c k v r).
    + intros Hk Hsz Hwf. assert (size c ≠ 0%Z) as Hnz by lia.
      destruct (evict_sweep c Hwf Hnz)
        as (start & x & n & h' & Hstart & Hsweep & Hn & Hv & Hxin & Hkx & Hev).
      destruct (wf_start c Hwf Hnz) as (start' & Hstart' & Hin).
      rewrite Hstart in Hstart'. injection Hstart' as <-.
      destruct (evicted_wf c start x n h' Hwf Hnz Hsweep Hin Hn) as [_ Hsz'].
      exists (key n), (evicted c x n h'). split_and!; try done.
      * simpl. apply GoListFacts.length_Remove; [by destruct Hwf|done].
      * simpl. apply lookup_delete_None. by right.
      * by apply (Set_absent_full c k v (key n, None)).
  - intros c1. exists (fresh (dom (cells c1))). split_and!; try done.
    + apply fresh_cell.
    + intros Hlt Hlen%wf_length. simpl. apply Int64Facts.wrap_in_range.
      unfold Int64.in_range, Int64.min_int, Int64.max_int in *. lia.
Qed.


(** C9.  A call that returns an error leaves the cache as it found it:
    [Get] and [Delete] return only [ErrKeyNotFound], [Evict] only
    [ErrEmptyCache], and in each case the state after the call is the state
    before it. *)
Theorem error_leaves_state c :
  (∀ k r e c', Get k c = Ret ((r, Some e), c') → e = ErrKeyNotFound ∧ c' = c) ∧
  (∀ k r e c', Delete k c = Ret ((r, Some e), c') → e = ErrKeyNotFound ∧ c' = c) ∧
  (∀ k e c', Evict c = Ret ((k, Some e), c') → e = ErrEmptyCache ∧ c' = c).
Proof.
  split_and!.
  - intros k r e c' Hget. pose proof (Get_error _ _ _ _ _ Hget) as Hk.
    rewrite Get_absent in Hget by done. by injection Hget as _ <- <-.
  - intros k r e c' Hdel. pose proof (Delete_error _ _ _ _ _ Hdel) as Hk.
    rewrite Delete_absent in Hdel by done. by injection Hdel as _ <- <-.
  - intros k e c' Hev. unfold Evict in Hev.
    pose proof (evict_error _ _ _ _ Hev) as Hsz.
    rewrite evict_empty in Hev by done. by injection Hev as _ <- <-.
Qed.

(** C10.  When [Get] or [Delete] fails with [ErrKeyNotFound] the value it
    returns is the zero value of the value type, and when [Evict] fails with
    [ErrEmptyCache] the key it returns is the zero value of the key type. *)
Theorem error_returns_zero c :
  (∀ k r c', Get k c = Ret ((r, Some ErrKeyNotFound), c') → r = zero) ∧
  (∀ k r c', Delete k c = Ret ((r, Some ErrKeyNotFound), c') → r = zero) ∧
  (∀ k c', Evict c = Ret ((k, Some ErrEmptyCache), c') → k = zero).
Proof.
  split_and!.
  - intros k r c' Hget. pose proof (Get_error _ _ _ _ _ Hget) as Hk.
    rewrite Get_absent in Hget by done. by injection Hget as <- _.
  - intros k r c' Hdel. pose proof (Delete_error _ _ _ _ _ Hdel) as Hk.
    rewrite Delete_absent in Hdel by done. by injection Hdel as <- _.
  - intros k c' Hev. unfold Evict in Hev.
    pose proof (evict_error _ _ _ _ Hev) as Hsz.
    rewrite evict_empty in Hev by done. by injection Hev as <- _.
Qed.

(** [Contains] is invisible to every later run of evictions. *)
Lemma Contains_frame c k (m : nat) :
  (Contains k;; Evict_seq m) c = Evict_seq m c.
Proof. done. Qed.

End SieveFacts.

(** * Further properties of the code *)

Section SieveMore.
Context {K V : Type} `{Countable K} `{Zero K} `{Zero V}.
Implicit Types (c : Cache (K:=K) (V:=V)) (k : K).
Implicit Types (h : gmap nat (nodeEntry (K:=K) (V:=V))).
Implicit Types (n : nodeEntry (K:=K) (V:=V)).

(** ** What a lookup depends on *)

(** The pair [Get] returns is determined by the index and by the value of
    the cell the index points to. *)
Lemma Get_result c1 c2 k r c1' :
  keysMap c2 !! k = keysMap c1 !! k →
  (∀ e, keysMap c1 !! k = Some e →
        value <$> cells c2 !! e = value <$> cells c1 !! e) →
  Get k c1 = Ret (r, c1') → ∃ c2', Get k c2 = Ret (r, c2').
Proof.
  intros Hidx Hval. destruct (keysMap c1 !! k) as [e|] eqn:Hk.
  - specialize (Hval e eq_refl).
    destruct (cells c1 !! e) as [n1|] eqn:Hn1.
    + rewrite (Get_present c1 k e n1) by done. intros [= <- <-].
      destruct (cells c2 !! e) as [n2|] eqn:Hn2; [|done].
      rewrite (Get_present c2 k e n2) by done. injection Hval as ->. by eexists.
    + unfold Get. run. by rewrite Hk, Hn1.
  - rewrite Get_absent by done. intros [= <- <-].
    rewrite Get_absent by done. by eexists.
Qed.

Lemma Get_success c k (v : V) c' :
  Get k c = Ret ((v, None), c') →
  ∃ e n, keysMap c !! k = Some e ∧ cells c !! e = Some n ∧ value n = v ∧
         c' = set_cells (alter (set_visited true) e (cells c)) c.
Proof.
  destruct (keysMap c !! k) as [e|] eqn:Hk.
  - destruct (cells c !! e) as [n|] eqn:Hn.
    + rewrite (Get_present c k e n) by done. intros [= <- <-]. by exists e, n.
    + unfold Get. run. by rewrite Hk, Hn.
  - by rewrite Get_absent.
Qed.

Lemma alter_visited_value h b e x :
  value <$> alter (set_visited b) e h !! x = value <$> h !! x.
Proof.
  rewrite lookup_alter. case_decide; [subst|done]. by destruct (h !! x).
Qed.

(** ** Insertion and lookup *)

(** X1.  Inserting an absent key into a cache of positive capacity that
    satisfies the invariants succeeds, and the key then answers [Contains]
    and [Get] with the value just stored. *)
Theorem Set_then_Get c k (v : V) :
  wf c → (capacity c > 0)%Z → keysMap c !! k = None →
  ∃ c1 c2,
    Set_ k v c = Ret (tt, c1) ∧
    Contains k c1 = Ret (true, c1) ∧
    Get k c1 = Ret ((v, None), c2).
Proof.
  intros Hwf Hcap Hk.
  assert (∃ c0, Set_ k v c = Ret (tt, inserted k v c0)) as [c0 Hset].
  { destruct (decide (size c = capacity c)) as [Hsz|Hsz].
    - destruct (evict_wf c Hwf) as (r & c0 & Hev & _).
      exists c0. by apply (Set_absent_full c k v r).
    - exists c. by apply Set_absent_room. }
  exists (inserted k v c0). eexists. split; [done|].
  assert (keysMap (inserted k v c0) !! k = Some (fresh (dom (cells c0)))) as Hidx
    by (simpl; by rewrite lookup_insert_eq).
  split.
  - rewrite Contains_eq, Hidx. by rewrite bool_decide_eq_true_2.
  - rewrite (Get_present _ k _ (mkEntry false k v) Hidx); [done|].
    simpl. by rewrite lookup_insert_eq.
Qed.

(** X2.  [Set] on a key that is present never replaces the stored value:
    whatever value is passed, a following [Get] returns the value stored
    before, and the keys, their order, [size] and the hand are untouched. *)
Theorem Set_existing_keeps_value c k (v : V) e n :
  keysMap c !! k = Some e → cells c !! e = Some n →
  ∃ c1 c2,
    Set_ k v c = Ret (tt, c1) ∧
    Get k c1 = Ret ((value n, None), c2) ∧
    keysMap c1 = keysMap c ∧ q c1 = q c ∧ size c1 = size c ∧
    hand c1 = hand c ∧ capacity c1 = capacity c.
Proof.
  intros Hk Hn. destruct (decide (capacity c <= 0)%Z) as [Hc|Hc].
  - rewrite Set_disabled by done. exists c. eexists. split; [done|].
    by rewrite (Get_present c k e n).
  - rewrite (Set_present c k v e n) by (done || lia).
    eexists. eexists. split; [done|]. split; [|done].
    erewrite (Get_present _ k e (set_visited true n)); [done|done|].
    simpl. by rewrite lookup_alter_eq, Hn.
Qed.

(** ** Lookup leaves the cache in place *)

(** X3.  A [Get] never adds, removes or reorders anything: the capacity,
    [size], the list, the index and the hand are the same after the call,
    the cells differ at most in visited flags, and every later [Get]
    returns the pair it would have returned before. *)
Theorem Get_keeps_entries c k r c' :
  Get k c = Ret (r, c') →
  capacity c' = capacity c ∧ size c' = size c ∧ q c' = q c ∧
  keysMap c' = keysMap c ∧ hand c' = hand c ∧
  (∀ x, key <$> cells c' !! x = key <$> cells c !! x) ∧
  (∀ x, value <$> cells c' !! x = value <$> cells c !! x) ∧
  (∀ k' r' c1, Get k' c = Ret (r', c1) → ∃ c1', Get k' c' = Ret (r', c1')).
Proof.
  intros Hget.
  assert (c' = c ∨ ∃ e, c' = set_cells (alter (set_visited true) e (cells c)) c)
    as Hc'.
  { destruct r as [v [err|]].
    - left. pose proof (Get_error _ _ _ _ _ Hget) as Hk.
      rewrite Get_absent in Hget by done. by injection Hget.
    - right. destruct (Get_success _ _ _ _ Hget) as (e & _ & _ & _ & _ & ->).
      by exists e. }
  assert (∀ x, key <$> cells c' !! x = key <$> cells c !! x) as Hkey.
  { destruct Hc' as [->|[e ->]]; [done|]. intros x. apply alter_visited_key. }
  assert (∀ x, value <$> cells c' !! x = value <$> cells c !! x) as Hval.
  { destruct Hc' as [->|[e ->]]; [done|]. intros x. apply alter_visited_value. }
  assert (keysMap c' = keysMap c) as Hidx by (by destruct Hc' as [->|[e ->]]).
  split_and!; try done; try (by destruct Hc' as [->|[e ->]]).
  intros k' r' c1. apply Get_result; [by rewrite Hidx|]. intros e _. apply Hval.
Qed.

(** ** [Contains], [Keys] and [Get] agree *)

(** X4.  [Contains] answers exactly whether the key is among [Keys()],
    which never lists a key twice; on a cache that satisfies the invariants
    these are exactly the keys for which [Get] succeeds. *)
Theorem Contains_Keys_Get c k :
  Contains k c = Ret (bool_decide (k ∈ Keys c), c) ∧
  NoDup (Keys c) ∧
  (wf c → k ∈ Keys c ↔ ∃ (v : V) c', Get k c = Ret ((v, None), c')).
Proof.
  assert (k ∈ Keys c ↔ is_Some (keysMap c !! k)) as Hin.
  { unfold Keys. rewrite list_elem_of_fmap. split.
    - intros ([k' e] & -> & Hin%elem_of_map_to_list). by exists e.
    - intros [e He]. exists (k, e). split; [done|]. by apply elem_of_map_to_list. }
  split_and!.
  - rewrite Contains_eq. do 2 f_equal. by apply bool_decide_ext.
  - apply NoDup_fst_map_to_list.
  - intros Hwf. rewrite Hin. split.
    + intros [e He]. destruct (wf_indexed c k e Hwf He) as (_ & n & Hn & _).
      exists (value n). eexists. by apply (Get_present c k e n).
    + intros (v & c' & Hget).
      destruct (Get_success _ _ _ _ Hget) as (e & _ & He & _). by exists e.
Qed.

(** ** Removal of a key *)

Lemma Keys_delete c (m : gmap K nat) k e :
  keysMap c !! k = Some e → m = delete k (keysMap c) →
  Keys c ≡ₚ k :: (map_to_list m).*1.
Proof.
  intros Hk ->. unfold Keys.
  by rewrite <-(map_to_list_delete (keysMap c) k e Hk).
Qed.

Lemma Delete_success c k (v : V) c' :
  Delete k c = Ret ((v, None), c') →
  ∃ e n, keysMap c !! k = Some e ∧ cells c !! e = Some n ∧ value n = v ∧
         c' = set_q (GoList.Remove (q c) e) (set_keysMap (delete k (keysMap c)) c).
Proof.
  destruct (keysMap c !! k) as [e|] eqn:Hk.
  - destruct (cells c !! e) as [n|] eqn:Hn.
    + rewrite (Delete_present c k e n) by done. intros [= <- <-]. by exists e, n.
    + unfold Delete. run. by rewrite Hk; run; rewrite Hn.
  - by rewrite Delete_absent.
Qed.

(** X5.  After a [Delete] that succeeded the key is gone: [Contains]
    answers false, [Get] and a second [Delete] fail with [ErrKeyNotFound];
    every other key answers [Get] as it did before. *)
Theorem Delete_then_absent c k (v : V) c' :
  Delete k c = Ret ((v, None), c') →
  Contains k c' = Ret (false, c') ∧
  Get k c' = Ret ((zero, Some ErrKeyNotFound), c') ∧
  Delete k c' = Ret ((zero, Some ErrKeyNotFound), c') ∧
  (∀ k' r' c1, k' ≠ k →
     Get k' c = Ret (r', c1) → ∃ c1', Get k' c' = Ret (r', c1')).
Proof.
  intros Hdel. destruct (Delete_success _ _ _ _ Hdel) as (e & n & Hk & Hn & _ & ->).
  assert (keysMap (set_q (GoList.Remove (q c) e)
                     (set_keysMap (delete k (keysMap c)) c)) !! k = None) as Hgone
    by (simpl; apply lookup_delete_eq).
  split_and!.
  - rewrite Contains_eq, Hgone. by rewrite bool_decide_eq_false_2 by (by intros [??]).
  - by apply Get_absent.
  - by apply Delete_absent.
  - intros k' r' c1 Hne. apply Get_result; [|done].
    simpl. by rewrite lookup_delete_ne.
Qed.

(** X6.  On a cache that satisfies the invariants, [Delete] of a present
    key returns its value and keeps the list and the index in agreement
    (no duplicates, every linked element indexed under its key and every
    indexed element linked) with exactly that key removed; the hand is left
    where it was, and [size] ends one above the number of entries. *)
Theorem Delete_keeps_index c k e :
  wf c → keysMap c !! k = Some e →
  ∃ n c',
    cells c !! e = Some n ∧ key n = k ∧
    Delete k c = Ret ((value n, None), c') ∧
    NoDup (q c') ∧ Forall (live c') (q c') ∧
    map_Forall (indexed c') (keysMap c') ∧
    Keys c ≡ₚ k :: Keys c' ∧
    S (length (q c')) = length (q c) ∧
    size c' = (Z.of_nat (length (q c')) + 1)%Z ∧
    hand c' = hand c ∧
    (hand_linked c' ↔ hand c ≠ Some e).
Proof.
  intros Hwf Hk. pose proof Hwf as (Hnd & Hlive & Hidx & Hh & Hlen & Hmax).
  destruct (wf_indexed c k e Hwf Hk) as (He & n & Hn & Hkey).
  pose proof (GoListFacts.length_Remove (q c) e Hnd He) as HlenR.
  exists n. eexists. split; [done|]. split; [done|].
  split; [by apply Delete_present|]. simpl. split_and!; try done.
  - by apply GoListFacts.NoDup_Remove.
  - rewrite Forall_forall. intros x [Hx Hne]%GoListFacts.elem_of_Remove.
    destruct (wf_live c x Hwf Hx) as (nx & Hnx & Hkx).
    unfold live; simpl. rewrite Hnx; simpl.
    rewrite lookup_delete_ne; [done|].
    intros Heq. rewrite <-Heq in Hkx. congruence.
  - intros k' e' [Hne Hk']%lookup_delete_Some.
    destruct (Hidx k' e' Hk') as [He' Hke']. unfold indexed; simpl.
    split; [|done]. apply GoListFacts.elem_of_Remove. split; [done|].
    intros ->. rewrite Hn in Hke'. simpl in Hke'. congruence.
  - by apply (Keys_delete c _ k e).
  - lia.
  - unfold hand_linked in *; simpl. destruct (hand c) as [hd|]; [|done].
    rewrite GoListFacts.elem_of_Remove. split; [intros [_ ?]; congruence|].
    intros Hne. split; [done|]. congruence.
Qed.

(** ** Eviction of a key *)

Lemma evict_keys c :
  wf c → size c ≠ 0%Z →
  ∃ k c', evict c = Ret ((k, None), c') ∧ wf c' ∧
    capacity c' = capacity c ∧ size c' = (size c - 1)%Z ∧
    Keys c ≡ₚ k :: Keys c' ∧
    keysMap c' = delete k (keysMap c) ∧
    (∀ x, value <$> cells c' !! x = value <$> cells c !! x).
Proof.
  intros Hwf Hsz.
  destruct (evict_sweep c Hwf Hsz)
    as (start & v & n & h' & Hstart & Hsweep & Hn & Hv & Hvin & Hkv & Hev).
  destruct (wf_start c Hwf Hsz) as (start' & Hstart' & Hin).
  rewrite Hstart in Hstart'. injection Hstart' as <-.
  destruct (evicted_wf c start v n h' Hwf Hsz Hsweep Hin Hn) as [Hwf' Hsz'].
  exists (key n), (evicted c v n h'). split_and!; try done.
  - by apply (Keys_delete c _ (key n) v).
  - intros x. simpl. pose proof (sweep_cells _ _ _ _ _ x Hsweep) as Hc.
    unfold set_visited in Hc.
    destruct (h' !! x), (cells c !! x); simpl in *; congruence.
Qed.

(** X7.  On a non-empty cache that satisfies the invariants [Evict] removes
    exactly one key: the key it returns was among [Keys()], the keys left
    are the others, [size] drops by one, the invariants still hold, and
    every other key answers [Get] as before. *)
Theorem Evict_removes_one_key c :
  wf c → size c ≠ 0%Z →
  ∃ k c',
    Evict c = Ret ((k, None), c') ∧ wf c' ∧
    Keys c ≡ₚ k :: Keys c' ∧
    Contains k c = Ret (true, c) ∧ Contains k c' = Ret (false, c') ∧
    Size c' = (Size c - 1)%Z ∧ Capacity c' = Capacity c ∧
    (∀ k' r' c1, k' ≠ k →
       Get k' c = Ret (r', c1) → ∃ c1', Get k' c' = Ret (r', c1')).
Proof.
  intros Hwf Hsz.
  destruct (evict_keys c Hwf Hsz)
    as (k & c' & Hev & Hwf' & Hcap & Hsz' & Hperm & Hidx & Hval).
  exists k, c'. split_and!; try done.
  - rewrite Contains_eq. f_equal. f_equal. apply bool_decide_eq_true_2.
    assert (k ∈ Keys c) as Hin by (rewrite Hperm; left).
    unfold Keys in Hin. apply list_elem_of_fmap in Hin as ([k' e] & -> & Hin).
    apply elem_of_map_to_list in Hin. by exists e.
  - rewrite Contains_eq, Hidx, lookup_delete_eq.
    by rewrite bool_decide_eq_false_2 by (by intros [??]).
  - intros k' r' c1 Hne. apply Get_result.
    + by rewrite Hidx, lookup_delete_ne.
    + intros e _. apply Hval.
Qed.

(** ** Shrinking *)

Lemma evict_times_keys (m : nat) c :
  wf c →
  ∃ ks c', evict_times m c = Ret (ks, c') ∧ wf c' ∧
    capacity c' = capacity c ∧
    Keys c ≡ₚ ks ++ Keys c' ∧
    length ks = (m `min` length (q c))%nat ∧
    size c' = (size c - Z.of_nat (length ks))%Z ∧
    (∀ k' r' c1, k' ∈ Keys c' →
       Get k' c = Ret (r', c1) → ∃ c1', Get k' c' = Ret (r', c1')).
Proof.
  revert c. induction m as [|m IH]; intros c Hwf.
  - exists [], c. split_and!; try done; [simpl; lia|]. intros; by eexists.
  - cbn [evict_times]. step.
    destruct (decide (size c = 0%Z)) as [Hz|Hnz].
    + rewrite evict_empty by done.
      destruct (IH c Hwf) as (ks & c2 & Hks & Hwf2 & Hcap2 & Hperm & Hlen & Hsz & Hget).
      rewrite Hks. exists ks, c2. split_and!; try done.
      rewrite Hlen. apply wf_length in Hwf. lia.
    + destruct (evict_keys c Hwf Hnz)
        as (k & c1 & Hev & Hwf1 & Hcap1 & Hsz1 & Hperm1 & Hidx1 & Hval1).
      destruct (IH c1 Hwf1) as (ks & c2 & Hks & Hwf2 & Hcap2 & Hperm & Hlen & Hsz & Hget).
      rewrite Hev, Hks. exists (k :: ks), c2.
      pose proof (wf_length c Hwf) as Hl. pose proof (wf_length c1 Hwf1) as Hl1.
      split_and!; try done.
      * congruence.
      * by rewrite Hperm1, Hperm.
      * cbn [length]. rewrite Hlen. lia.
      * cbn [length]. lia.
      * intros k' r' c3 Hin Hg.
        assert (k' ≠ k) as Hne.
        { intros ->. assert (k ∈ Keys c1) as Hin1
            by (rewrite Hperm; apply elem_of_app; by right).
          unfold Keys in Hin1.
          apply list_elem_of_fmap in Hin1 as ([k0 e] & -> & Hin1).
          apply elem_of_map_to_list in Hin1. simpl in Hin1.
          by rewrite Hidx1, lookup_delete_eq in Hin1. }
        destruct (Get_result c c1 k' r' c3) as [c3' Hg1]; try done.
        { by rewrite Hidx1, lookup_delete_ne. }
        by apply (Hget k' r' c3').
Qed.

(** X8.  [Resize] to a smaller capacity, when [size - newCapacity] fits in
    an [int64], on a cache that satisfies the invariants: the keys returned
    together with the keys kept are the keys held before, the cache ends
    with [min(size, max(newCapacity, 0))] entries and the new capacity, the
    invariants still hold, and the keys kept answer [Get] as before. *)
Theorem Resize_shrinks c (newCapacity : Z) :
  wf c → (newCapacity < capacity c)%Z →
  Int64.in_range (size c - newCapacity) →
  ∃ ks c',
    Resize newCapacity c = Ret (ks, c') ∧ wf c' ∧
    Capacity c' = newCapacity ∧
    Keys c ≡ₚ ks ++ Keys c' ∧
    Size c' = (Size c `min` (newCapacity `max` 0))%Z ∧
    Z.of_nat (length ks) = (Size c - Size c')%Z ∧
    (∀ k' r' c1, k' ∈ Keys c' →
       Get k' c = Ret (r', c1) → ∃ c1', Get k' c' = Ret (r', c1')).
Proof.
  intros Hwf Hlt Hrange. rewrite Resize_shrink by done.
  unfold Int64.sub. rewrite Int64Facts.wrap_in_range by done.
  destruct (evict_times_keys (Z.to_nat (size c - newCapacity)) c Hwf)
    as (ks & c' & -> & Hwf' & Hcap & Hperm & Hlen & Hsz & Hget).
  pose proof (wf_length c Hwf) as Hl.
  exists ks, (set_capacity newCapacity c'). unfold Size, Capacity.
  split_and!; try done; simpl; try lia.
  intros k' r' c1 Hin Hg. destruct (Hget k' r' c1 Hin Hg) as [c1' Hg'].
  revert Hg'. by apply Get_result.
Qed.

(** X9.  When [size - newCapacity] does not fit in an [int64] the count of
    keys to evict wraps to a negative number: [Resize] then evicts nothing
    and only sets the capacity, although it is below the number of
    entries. *)
Theorem Resize_overflow_evicts_nothing c (newCapacity : Z) :
  Int64.in_range newCapacity → Int64.in_range (size c) →
  (newCapacity < capacity c)%Z →
  (size c - newCapacity > Int64.max_int)%Z →
  Resize newCapacity c = Ret ([], set_capacity newCapacity c).
Proof.
  intros Hn Hs Hlt Hover. rewrite Resize_shrink by done.
  replace (Z.to_nat (Int64.sub (size c) newCapacity)) with 0%nat; [done|].
  unfold Int64.sub, Int64.wrap, Int64.in_range, Int64.min_int, Int64.max_int in *.
  replace (size c - newCapacity + 2 ^ 63)%Z
    with ((size c - newCapacity + 2 ^ 63 - 2 ^ 64) + 1 * 2 ^ 64)%Z by lia.
  rewrite Z_mod_plus_full, Z.mod_small by lia. lia.
Qed.

(** ** Clearing *)

(** X10.  [Clear] returns any cache whatever, also one whose [size] a
    [Delete] has left stale, to the state of a new cache of the same
    capacity: the invariants hold again, there is no key, and [Evict]
    fails with [ErrEmptyCache]. *)
Theorem Clear_resets c :
  Clear c = Ret (tt, NewCache (capacity c)) ∧
  wf (NewCache (K:=K) (V:=V) (capacity c)) ∧
  (Clear;; Evict) c = Ret ((zero, Some ErrEmptyCache), NewCache (capacity c)) ∧
  ∀ k, (Clear;; Contains k) c = Ret (false, NewCache (capacity c)).
Proof. split_and!; try done. apply NewCache_wf. Qed.

(** ** Enumeration *)

Lemma items_of_values c (l : list (K * nat)) :
  (∀ k e, (k, e) ∈ l → is_Some (cells c !! e)) →
  ∃ items, items_of l c = Ret (items, c) ∧
    Forall2 (λ it p, Key it = p.1 ∧
                     value <$> cells c !! p.2 = Some (Value it)) items l.
Proof.
  induction l as [|[k e] l IH]; intros Hl; [by exists []|].
  destruct (Hl k e) as [n Hn]; [left|].
  destruct IH as (items & Hitems & Hall); [intros ???; eapply Hl; by right|].
  exists (mkItem k (value n) :: items). split.
  - simpl. run. rewrite Hn. by rewrite Hitems.
  - apply Forall2_cons. split; [|done]. simpl. by rewrite Hn.
Qed.

(** X11.  On a cache that satisfies the invariants, whatever the orders
    [lk] and [li] in which the loops of [Keys()] and [Items()] visit the
    index, [Items()] returns without changing the cache, its items carry
    each key once, the keys of [Keys()] up to the order, as many as
    [Size()] says, and each key is paired with the value [Get] returns for
    it; the lists of the model are the case of the order of
    [map_to_list]. *)
Theorem Items_agree_with_Get c (lk li : list (K * Element)) :
  wf c → range_order (keysMap c) lk → range_order (keysMap c) li →
  ∃ items,
    items_of li c = Ret (items, c) ∧
    Key <$> items ≡ₚ lk.*1 ∧
    NoDup (Key <$> items) ∧
    Z.of_nat (length items) = Size c ∧
    (∀ it, it ∈ items → ∃ c', Get (Key it) c = Ret ((Value it, None), c')) ∧
    (li = map_to_list (keysMap c) → Items c = Ret (items, c)) ∧
    (lk = map_to_list (keysMap c) → lk.*1 = Keys c).
Proof.
  unfold range_order. intros Hwf Hlk Hli.
  destruct (items_of_values c li) as (items & Hit & Hall).
  { intros k e Hin. rewrite Hli in Hin. apply elem_of_map_to_list in Hin.
    destruct (wf_indexed c k e Hwf Hin) as (_ & n & -> & _). by eexists. }
  assert (Key <$> items = li.*1) as Hkeys.
  { clear Hit Hli. induction Hall as [|it p items l [Hk _] _ IH]; [done|].
    by rewrite !fmap_cons, Hk, IH. }
  exists items. split_and!; try done.
  - by rewrite Hkeys, Hli, Hlk.
  - rewrite Hkeys, Hli. apply NoDup_fst_map_to_list.
  - destruct (wf_Keys c Hwf) as [<- _]. unfold Keys.
    by rewrite <-(length_fmap Key), Hkeys, Hli.
  - intros it Hin.
    apply list_elem_of_lookup in Hin as [i Hi].
    destruct (Forall2_lookup_l _ _ _ _ _ Hall Hi) as ([k e] & Hp & Hk & Hv).
    simpl in *. apply list_elem_of_lookup_2 in Hp. rewrite Hli in Hp.
    apply elem_of_map_to_list in Hp.
    destruct (cells c !! e) as [n|] eqn:Hn; [|done]. injection Hv as Hv.
    eexists. rewrite (Get_present c (Key it) e n); [by rewrite Hv|congruence|done].
  - intros ->. unfold Items. step. exact Hit.
  - by intros ->.
Qed.

(** ** Insertion within the capacity *)

Lemma Keys_inserted c k (v : V) :
  keysMap c !! k = None → Keys (inserted k v c) ≡ₚ k :: Keys c.
Proof.
  intros Hk. unfold Keys. simpl.
  by rewrite (map_to_list_insert (keysMap c) k _ Hk).
Qed.

Lemma inserted_Get c k (v : V) k' r' c1 :
  wf c → k' ≠ k →
  Get k' c = Ret (r', c1) → ∃ c1', Get k' (inserted k v c) = Ret (r', c1').
Proof.
  intros Hwf Hne. apply Get_result; simpl.
  - by rewrite lookup_insert_ne.
  - intros e He. destruct (wf_indexed c k' e Hwf He) as (_ & n & Hn & _).
    rewrite lookup_insert_ne; [done|]. intros <-. by rewrite fresh_cell in Hn.
Qed.

Lemma Get_inserted c k (v : V) :
  ∃ c2, Get k (inserted k v c) = Ret ((v, None), c2).
Proof.
  eexists. rewrite (Get_present _ k (fresh (dom (cells c))) (mkEntry false k v));
    [done| |]; simpl; by rewrite lookup_insert_eq.
Qed.

Lemma Set_step c k (v : V) :
  wf c → (0 < capacity c ≤ Int64.max_int)%Z → (size c ≤ capacity c)%Z →
  keysMap c !! k = None →
  ∃ c', Set_ k v c = Ret (tt, c') ∧ wf c' ∧ capacity c' = capacity c ∧
    size c' = ((size c + 1) `min` capacity c)%Z ∧
    (∃ c2, Get k c' = Ret ((v, None), c2)) ∧
    (∀ k', k' ≠ k → keysMap c !! k' = None → keysMap c' !! k' = None) ∧
    ((size c < capacity c)%Z →
       Keys c' ≡ₚ k :: Keys c ∧
       ∀ k' r' c1, k' ≠ k →
         Get k' c = Ret (r', c1) → ∃ c1', Get k' c' = Ret (r', c1')).
Proof.
  intros Hwf Hcap Hsz Hk.
  destruct (decide (size c = capacity c)) as [Hfull|Hroom].
  - assert (size c ≠ 0%Z) as Hnz by lia.
    destruct (evict_keys c Hwf Hnz)
      as (k0 & c1 & Hev & Hwf1 & Hcap1 & Hsz1 & _ & Hidx1 & _).
    assert (keysMap c1 !! k = None) as Hk1
      by (rewrite Hidx1; apply lookup_delete_None; by right).
    destruct (inserted_wf c1 k v Hwf1 Hk1) as [Hwf' Hsz']; [lia|].
    exists (inserted k v c1). split_and!; try done; try lia.
    + by apply (Set_absent_full c k v (k0, None)); try lia.
    + apply Get_inserted.
    + intros k' Hne Hk'. simpl. rewrite lookup_insert_ne by done.
      rewrite Hidx1. apply lookup_delete_None. by right.
  - destruct (inserted_wf c k v Hwf Hk) as [Hwf' Hsz']; [lia|].
    exists (inserted k v c). split_and!; try done; try lia.
    + apply Set_absent_room; (done || lia).
    + apply Get_inserted.
    + intros k' Hne Hk'. simpl. by rewrite lookup_insert_ne.
    + intros _. split; [by apply Keys_inserted|].
      intros k' r' c1 Hne. by apply inserted_Get.
Qed.

(** X12.  [Set] never lets a cache outgrow its capacity: on a cache that
    satisfies the invariants with [size <= capacity], it returns with the
    invariants and the capacity kept and [size <= capacity] again. *)
Theorem Set_respects_capacity c k (v : V) :
  wf c → (0 < capacity c ≤ Int64.max_int)%Z → (size c ≤ capacity c)%Z →
  ∃ c', Set_ k v c = Ret (tt, c') ∧ wf c' ∧
        Capacity c' = Capacity c ∧ (Size c' ≤ Capacity c')%Z.
Proof.
  intros Hwf Hcap Hsz. unfold Size, Capacity.
  destruct (keysMap c !! k) as [e|] eqn:Hk.
  - destruct (wf_indexed c k e Hwf Hk) as (_ & n & Hn & _).
    rewrite (Set_present c k v e n) by (done || lia).
    eexists. split_and!; try done.
    apply flags_wf; [|done]. intros x. apply alter_visited_key.
  - destruct (Set_step c k v Hwf Hcap Hsz Hk)
      as (c' & Hset & Hwf' & Hc' & Hs' & _).
    exists c'. split_and!; try done. lia.
Qed.

Lemma Set_all_step (kvs : list (K * V)) c :
  wf c → (0 < capacity c ≤ Int64.max_int)%Z → (size c ≤ capacity c)%Z →
  NoDup kvs.*1 → (∀ k, k ∈ kvs.*1 → keysMap c !! k = None) →
  ∃ c', perform_all (uncurry CallSet <$> kvs) c = Ret (tt, c') ∧ wf c' ∧
    capacity c' = capacity c ∧
    size c' = ((size c + Z.of_nat (length kvs)) `min` capacity c)%Z ∧
    ((size c + Z.of_nat (length kvs) ≤ capacity c)%Z →
       Keys c' ≡ₚ kvs.*1 ++ Keys c ∧
       (∀ k (v : V), (k, v) ∈ kvs →
          ∃ c1, Get k c' = Ret ((v, None), c1)) ∧
       (∀ k' r' c1, k' ∉ kvs.*1 →
          Get k' c = Ret (r', c1) → ∃ c1', Get k' c' = Ret (r', c1'))).
Proof.
  revert c. induction kvs as [|[k v] kvs IH]; intros c Hwf Hcap Hsz Hnd Habs.
  - exists c. split_and!; try done; [simpl; lia|]. intros _.
    split_and!; [done|by intros ?? ?%elem_of_nil|intros; by eexists].
  - rewrite fmap_cons in Hnd. apply NoDup_cons in Hnd as [Hk Hnd].
    assert (keysMap c !! k = None) as Hkc by (apply Habs; rewrite fmap_cons; left).
    destruct (Set_step c k v Hwf Hcap Hsz Hkc)
      as (c1 & Hset & Hwf1 & Hc1 & Hs1 & [c2 Hg] & Hfr & Hroom).
    destruct (IH c1) as (c' & Hall & Hwf' & Hc' & Hs' & Hfit); try done;
      try (rewrite ?Hc1; lia).
    { intros k' Hk'. apply Hfr; [by intros ->|]. apply Habs.
      rewrite fmap_cons. by right. }
    exists c'. split_and!; try done.
    + rewrite fmap_cons. cbn [perform_all uncurry perform]. step.
      by rewrite Hset.
    + congruence.
    + cbn [length]. rewrite Hc1 in Hs'. lia.
    + cbn [length]. intros Hle.
      destruct Hroom as [Hperm1 Hget1]; [lia|].
      destruct Hfit as (Hperm & Hnew & Hold); [rewrite Hc1; lia|].
      split_and!.
      * rewrite Hperm, Hperm1, fmap_cons. simpl.
        by rewrite <-Permutation_middle.
      * intros k0 v0 [[= -> ->]|Hin]%elem_of_cons; [|by apply Hnew].
        destruct (Hold k (v, None) c2 Hk Hg) as [c3 Hg']. by exists c3.
      * intros k' r' c4 Hnotin Hg4.
        assert (k' ≠ k) as Hne
          by (intros ->; apply Hnotin; rewrite fmap_cons; left).
        destruct (Hget1 k' r' c4 Hne Hg4) as [c3 Hg1].
        apply (Hold k' r' c3); [|done]. intros Hin. apply Hnotin.
        rewrite fmap_cons. by right.
Qed.


(** X14.  A new cache into which no more distinct keys are inserted than
    its capacity allows holds exactly those keys, and [Get] returns for each
    of them the value it was inserted with. *)
Theorem Set_all_then_Get (cap : Z) (kvs : list (K * V)) :
  (0 < cap ≤ Int64.max_int)%Z → NoDup kvs.*1 →
  (Z.of_nat (length kvs) ≤ cap)%Z →
  ∃ c, perform_all (uncurry CallSet <$> kvs) (NewCache cap) = Ret (tt, c) ∧
    wf c ∧ Size c = Z.of_nat (length kvs) ∧
    Keys c ≡ₚ kvs.*1 ∧
    ∀ k v, (k, v) ∈ kvs → ∃ c1, Get k c = Ret ((v, None), c1).
Proof.
  intros Hcap Hnd Hlen.
  destruct (Set_all_step kvs (NewCache cap) (NewCache_wf cap))
    as (c & Hrun & Hwf & Hc & Hs & Hfit); try done; [simpl; lia|].
  destruct Hfit as (Hperm & Hget & _); [simpl; lia|].
  exists c. split_and!; try done.
  - unfold Size. rewrite Hs. simpl. lia.
  - rewrite Hperm. unfold Keys. simpl. rewrite map_to_list_empty. simpl.
    by rewrite app_nil_r.
Qed.

(** ** The order of eviction *)

Lemma Prev_adjacent (x : list nat) a b y :
  NoDup (x ++ a :: b :: y) → GoList.Prev (x ++ a :: b :: y) b = Some a.
Proof.
  induction x as [|d x IH]; intros Hnd.
  - simpl. by rewrite decide_True.
  - simpl in Hnd. apply NoDup_cons in Hnd as [Hd Hnd].
    cbn [app GoList.Prev].
    destruct (x ++ a :: b :: y) as [|y0 rest] eqn:Hl; [by destruct x|].
    rewrite decide_False; [by apply IH|].
    intros ->. destruct x as [|d' x]; simpl in Hl; injection Hl as -> Hrest.
    + apply NoDup_cons in Hnd as [Ha _]. apply Ha. rewrite <-Hrest. left.
    + apply NoDup_cons in Hnd as [Hb _]. apply Hb. rewrite <-Hrest.
      apply elem_of_app. right. right. left.
Qed.

Lemma chain_glue (l p p' : list nat) :
  chain l p → chain l p' →
  (∀ a b, last p = Some a → head p' = Some b →
          or_back l (GoList.Prev l a) = Some b) →
  chain l (p ++ p').
Proof.
  induction p as [|a p IH]; intros Hp Hp' Hlink; [done|].
  destruct p as [|b p].
  - simpl. destruct p' as [|b p']; [done|]. split; [|done]. by apply Hlink.
  - destruct Hp as [Hab Hp]. cbn [app chain]. split; [done|].
    apply IH; [done|done|]. intros a' b' Hl. apply Hlink.
    by rewrite last_cons_cons.
Qed.

Lemma chain_prefix (l p p' : list nat) : chain l (p ++ p') → chain l p.
Proof.
  induction p as [|a p IH]; [done|]. destruct p as [|b p]; [done|].
  cbn [app chain]. intros [Hab Hp]. split; [done|]. by apply IH.
Qed.

Lemma chain_down (y x z : list nat) :
  NoDup (x ++ y ++ z) → chain (x ++ y ++ z) (reverse y).
Proof.
  revert x. induction y as [|a y IH]; intros x Hnd; [done|].
  rewrite reverse_cons.
  replace (x ++ (a :: y) ++ z) with ((x ++ [a]) ++ y ++ z) in *
    by (by rewrite <-app_assoc).
  apply chain_glue; [by apply IH|done|].
  intros b a'. rewrite last_reverse. intros Hb [= <-].
  destruct y as [|b' y]; [done|]. injection Hb as ->.
  rewrite <-app_assoc in *. simpl in *.
  by rewrite Prev_adjacent.
Qed.

(** The scan order followed by its first element again is a stretch of a
    scan: the scan goes round the list. *)
Lemma chain_scan_order (l1 l2 : list nat) s :
  NoDup (l1 ++ s :: l2) →
  chain (l1 ++ s :: l2) (scan_order l1 s l2 ++ [s]).
Proof.
  intros Hnd. unfold scan_order.
  replace ((s :: reverse l1 ++ reverse l2) ++ [s])
    with (reverse (l1 ++ [s]) ++ reverse (s :: l2))
    by (rewrite reverse_snoc, reverse_cons; simpl; by rewrite app_assoc).
  apply chain_glue.
  - replace (l1 ++ s :: l2) with ([] ++ (l1 ++ [s]) ++ l2)
      by (simpl; by rewrite <-app_assoc).
    apply chain_down. simpl. by rewrite <-app_assoc.
  - replace (l1 ++ s :: l2) with (l1 ++ (s :: l2) ++ []) in *
      by (by rewrite app_nil_r).
    by apply chain_down.
  - intros a b. rewrite last_reverse, head_reverse. intros Ha Hb.
    assert (GoList.Front (l1 ++ s :: l2) = Some a) as Hfront.
    { unfold GoList.Front. destruct l1; simpl in *; congruence. }
    assert (GoList.Back (l1 ++ s :: l2) = Some b) as Hback.
    { unfold GoList.Back. by rewrite last_app, Hb. }
    destruct (l1 ++ s :: l2) as [|f l] eqn:Hl; [done|].
    injection Hfront as ->. rewrite GoListFacts.Prev_front by done. done.
Qed.

Lemma scan_order_Permutation (l1 l2 : list nat) s :
  scan_order l1 s l2 ≡ₚ l1 ++ s :: l2.
Proof.
  unfold scan_order. rewrite !reverse_Permutation.
  by rewrite Permutation_middle.
Qed.

Lemma demote_all_lookup (p : list nat) h x :
  demote_all p h !! x =
    if decide (x ∈ p) then set_visited false <$> h !! x else h !! x.
Proof.
  revert h. induction p as [|a p IH]; intros h; [done|].
  unfold demote_all in *. cbn [foldl]. rewrite IH, lookup_alter.
  destruct (decide (x ∈ p)) as [Hp|Hp], (decide (a = x)) as [->|Hne];
    (destruct (decide (x ∈ _ :: p)) as [Hin|Hin];
      [|try (exfalso; apply Hin; by (left || right))]); try done.
  - by destruct (h !! x).
  - apply elem_of_cons in Hin as [->|?]; done.
Qed.


Lemma sweep_through (l p : list nat) e' h h' v :
  chain l (p ++ [e']) → NoDup p →
  Forall (λ x, visited <$> h !! x = Some true) p →
  sweep l (demote_all p h) e' h' v →
  sweep l h (default e' (head p)) h' v.
Proof.
  revert h. induction p as [|a p IH]; intros h Hch Hnd Hvis Hs; [done|].
  apply NoDup_cons in Hnd as [Ha Hnd]. apply Forall_cons in Hvis as [Hva Hvis].
  destruct (h !! a) as [n|] eqn:Hn; [|done]. injection Hva as Hva.
  assert (or_back l (GoList.Prev l a) = Some (default e' (head p)) ∧
          chain l (p ++ [e'])) as [Hlink Hch'].
  { cbn [app chain] in Hch. by destruct p. }
  assert (sweep l (alter (set_visited false) a h) (default e' (head p)) h' v)
    as Hrest.
  { apply IH; try done. rewrite Forall_forall in *. intros x Hx.
    rewrite lookup_alter_ne; [by apply Hvis|]. by intros ->. }
  simpl. destruct (GoList.Prev l a) as [pr|] eqn:Hp; simpl in Hlink.
  - injection Hlink as ->. by eapply sweep_pred.
  - by eapply sweep_wrap.
Qed.

Lemma first_split {A} (P : A → Prop) `{∀ x, Decision (P x)} (l : list A) :
  Forall P l ∨ ∃ p1 v p2, l = p1 ++ v :: p2 ∧ Forall P p1 ∧ ¬ P v.
Proof.
  induction l as [|a l IH]; [by left|].
  destruct (decide (P a)) as [Ha|Ha].
  - destruct IH as [Hall|(p1 & v & p2 & -> & Hp1 & Hv)].
    + left. by apply Forall_cons.
    + right. exists (a :: p1), v, p2. split_and!; try done. by apply Forall_cons.
  - right. by exists [], a, l.
Qed.

Lemma wf_sub c : wf c → size c ≠ 0%Z → Int64.sub (size c) 1 = (size c - 1)%Z.
Proof.
  intros Hwf Hsz. pose proof Hwf as (_ & _ & _ & _ & Hlen & Hmax).
  apply Int64Facts.wrap_in_range.
  unfold Int64.in_range, Int64.min_int, Int64.max_int in *. lia.
Qed.

(** The victim is the first unvisited element in scan order, and the
    elements met before it are demoted. *)
Lemma evict_first_unvisited c (l1 l2 p1 p2 : list nat) s v n :
  wf c → size c ≠ 0%Z →
  q c = l1 ++ s :: l2 → or_back (q c) (hand c) = Some s →
  scan_order l1 s l2 = p1 ++ v :: p2 →
  Forall (λ x, visited <$> cells c !! x = Some true) p1 →
  cells c !! v = Some n → visited n = false →
  evict c = Ret ((key n, None), evicted c v n (demote_all p1 (cells c))).
Proof.
  intros Hwf Hsz Hq Hstart Hord Hvis Hn Hv.
  assert (NoDup (q c)) as Hnd by (by destruct Hwf).
  assert (NoDup (p1 ++ v :: p2)) as Hndo.
  { rewrite <-Hord, scan_order_Permutation, <-Hq. done. }
  apply NoDup_app in Hndo as (Hnd1 & Hdisj & _).
  assert (v ∉ p1) as Hv1 by (intros Hin; apply (Hdisj v Hin); left).
  assert (demote_all p1 (cells c) !! v = Some n) as Hn'
    by (by rewrite demote_all_lookup, decide_False).
  apply (evict_follows_sweep c s); try done.
  replace s with (default v (head p1)).
  2:{ unfold scan_order in Hord. destruct p1; simpl in *; congruence. }
  apply sweep_through; try done.
  - pose proof (chain_scan_order l1 l2 s) as Hch.
    rewrite <-Hq, Hord in Hch. specialize (Hch Hnd).
    apply (chain_prefix _ _ (p2 ++ [s])).
    by rewrite <-!app_assoc in *.
  - by eapply sweep_victim.
Qed.


Lemma start_or_back c s :
  match hand c with
  | Some hd => s = hd
  | None => GoList.Back (q c) = Some s
  end →
  or_back (q c) (hand c) = Some s.
Proof. unfold or_back. destruct (hand c); [by intros ->|done]. Qed.

(** X15.  Which entry [Evict] removes.  Let the scan start at element [s]
    (the hand, or the back of the list when the hand is nil) of a non-empty
    cache that satisfies the invariants, and take the elements in scan
    order: [s], the elements before it up to the front, then those after
    it from the back.  The victim is the first of them whose entry is
    unvisited; the entries met before it lose their visited flag and no
    other cell changes. *)
Theorem Evict_first_unvisited c (l1 l2 p1 p2 : list nat) s v n :
  wf c → size c ≠ 0%Z →
  q c = l1 ++ s :: l2 →
  match hand c with
  | Some hd => s = hd
  | None => GoList.Back (q c) = Some s
  end →
  scan_order l1 s l2 = p1 ++ v :: p2 →
  Forall (λ x, visited <$> cells c !! x = Some true) p1 →
  cells c !! v = Some n → visited n = false →
  ∃ h',
    Evict c = Ret ((key n, None),
                   {| capacity := capacity c;
                      size := size c - 1;
                      q := GoList.Remove (q c) v;
                      keysMap := delete (key n) (keysMap c);
                      hand := GoList.Prev (q c) v;
                      cells := h' |}) ∧
    ∀ x, h' !! x =
         if decide (x ∈ p1) then set_visited false <$> cells c !! x
         else cells c !! x.
Proof.
  intros Hwf Hsz Hq Hstart%start_or_back Hord Hvis Hn Hv.
  exists (demote_all p1 (cells c)). split; [|intros x; apply demote_all_lookup].
  unfold Evict.
  rewrite (evict_first_unvisited c l1 l2 p1 p2 s v n) by done.
  unfold evicted. by rewrite wf_sub.
Qed.


Lemma evict_victim_unvisited c u :
  wf c → size c ≠ 0%Z →
  u ∈ q c → visited <$> cells c !! u = Some false →
  ∃ e n c',
    evict c = Ret ((key n, None), c') ∧
    e ∈ q c ∧ cells c !! e = Some n ∧ visited n = false ∧
    keysMap c !! key n = Some e.
Proof.
  intros Hwf Hsz Hu Hunv.
  destruct (wf_start c Hwf Hsz) as (s & Hstart & Hs).
  destruct (list_elem_of_split _ _ Hs) as (l1 & l2 & Hq).
  destruct (first_split (λ x, visited <$> cells c !! x = Some true)
              (scan_order l1 s l2)) as [Hall|(p1 & v & p2 & Hord & Hp1 & Hv)].
  - rewrite Forall_forall in Hall. specialize (Hall u).
    rewrite scan_order_Permutation, <-Hq in Hall. specialize (Hall Hu).
    congruence.
  - assert (v ∈ q c) as Hvin.
    { rewrite Hq, <-scan_order_Permutation, Hord. apply elem_of_app.
      right. left. }
    destruct (wf_live c v Hwf Hvin) as (n & Hn & Hidx).
    assert (visited n = false) as Hvn.
    { rewrite Hn in Hv. simpl in Hv. destruct (visited n); [done|done]. }
    exists v, n. eexists. split_and!; try done.
    by apply (evict_first_unvisited c l1 l2 p1 p2 s v n).
Qed.

(** X17.  [Evict] never removes a visited entry while an unvisited one is
    linked: if some entry of a cache that satisfies the invariants is
    unvisited, the entry removed was unvisited before the call. *)
Theorem Evict_spares_visited c u :
  wf c → u ∈ q c → visited <$> cells c !! u = Some false →
  ∃ e n c',
    Evict c = Ret ((key n, None), c') ∧
    keysMap c !! key n = Some e ∧ cells c !! e = Some n ∧ visited n = false.
Proof.
  intros Hwf Hu Hunv.
  assert (size c ≠ 0%Z) as Hsz.
  { rewrite (wf_length c Hwf). destruct (q c); [by apply elem_of_nil in Hu|].
    simpl. lia. }
  destruct (evict_victim_unvisited c u Hwf Hsz Hu Hunv)
    as (e & n & c' & Hev & _ & Hn & Hv & Hidx).
  by exists e, n, c'.
Qed.


(** ** A cache that is written to and never read *)

Lemma Remove_back (l : list nat) b :
  NoDup (l ++ [b]) → GoList.Remove (l ++ [b]) b = l.
Proof.
  intros [_ [Hb _]]%NoDup_app. unfold GoList.Remove.
  rewrite filter_app. fold (GoList.Remove l b).
  rewrite GoListFacts.Remove_not_elem
    by (intros Hin; apply (Hb b Hin); left).
  rewrite filter_cons, decide_False by (by intros ?). by rewrite app_nil_r.
Qed.

Lemma Prev_back (l : list nat) b :
  NoDup (l ++ [b]) → GoList.Prev (l ++ [b]) b = GoList.Back l.
Proof.
  intros Hnd. destruct l as [|a l] using rev_ind.
  - simpl. done.
  - rewrite <-app_assoc in *. simpl in *.
    rewrite Prev_adjacent by done. unfold GoList.Back. by rewrite last_snoc.
Qed.

Lemma listing_app c (l l' : list nat) :
  omap (λ e, cells c !! e) (l ++ l') =
    omap (λ e, cells c !! e) l ++ omap (λ e, cells c !! e) l'.
Proof. apply omap_app. Qed.

Lemma evict_times_fifo (m : nat) c :
  length (q c) = m → wf c →
  hand c = None ∨ hand c = GoList.Back (q c) →
  Forall (λ x, visited <$> cells c !! x = Some false) (q c) →
  ∃ c', evict_times m c = Ret (reverse (key <$> listing c), c') ∧
        wf c' ∧ q c' = [] ∧ capacity c' = capacity c.
Proof.
  revert c. induction m as [|m IH]; intros c Hlen Hwf Hhand Hunv.
  - destruct (q c) as [|??] eqn:Hq; [|done]. exists c.
    unfold listing. rewrite Hq. by split_and!.
  - destruct (GoListFacts.Back_is_Some (q c)) as [b Hb]; [by destruct (q c)|].
    pose proof Hb as [l Hq]%last_Some.
    assert (NoDup (l ++ [b])) as Hnd by (rewrite <-Hq; by destruct Hwf).
    assert (size c ≠ 0%Z) as Hsz by (rewrite (wf_length c Hwf), Hlen; lia).
    assert (b ∈ q c) as Hbin by (by apply GoListFacts.Back_elem_of).
    destruct (wf_live c b Hwf Hbin) as (n & Hn & _).
    assert (visited n = false) as Hv.
    { rewrite Forall_forall in Hunv. specialize (Hunv b Hbin).
      rewrite Hn in Hunv. by injection Hunv. }
    assert (or_back (q c) (hand c) = Some b) as Hstart.
    { destruct Hhand as [->| ->]; [done|]. by rewrite Hb. }
    pose proof (evict_first_unvisited c l [] [] (reverse l ++ []) b b n
                  Hwf Hsz Hq Hstart eq_refl (Forall_nil_2 _) Hn Hv) as Hev.
    set (c1 := evicted c b n (demote_all [] (cells c))) in *.
    destruct (evict_wf c Hwf) as (r & c1' & Hev' & Hwf1 & _).
    rewrite Hev in Hev'. injection Hev' as <- <-.
    assert (q c1 = l) as Hq1 by (simpl; rewrite Hq; by apply Remove_back).
    destruct (IH c1) as (c' & Htimes & Hwf' & Hq' & Hcap'); try done.
    + rewrite Hq1. rewrite Hq, length_app in Hlen. simpl in Hlen. lia.
    + right. simpl. rewrite Hq at 1. rewrite Prev_back by done.
      by rewrite Hq, Remove_back.
    + rewrite Hq1. rewrite Hq in Hunv. apply Forall_app in Hunv as [Hunv _].
      done.
    + exists c'. split_and!; try done.
      cbn [evict_times]. step. rewrite Hev, Htimes. do 2 f_equal.
      unfold listing. rewrite Hq1, Hq. simpl cells.
      change (demote_all [] (cells c)) with (cells c).
      rewrite listing_app. simpl. rewrite Hn. simpl.
      rewrite fmap_app. change (key <$> [n]) with [key n].
      by rewrite reverse_snoc.
Qed.


Lemma listing_inserted c k (v : V) :
  wf c → listing (inserted k v c) = mkEntry false k v :: listing c.
Proof.
  intros Hwf. pose proof (fresh_unlinked c Hwf) as Hfresh.
  unfold listing, inserted. cbn [q cells].
  generalize dependent (fresh (dom (cells c))). intros e Hfresh.
  cbn [omap list_omap]. rewrite lookup_insert_eq. f_equal.
  induction (q c) as [|a l IH]; [done|]. cbn [omap list_omap].
  rewrite lookup_insert_ne by (intros ->; apply Hfresh; left).
  fold (omap (M:=list) (λ x, <[e:=mkEntry false k v]> (cells c) !! x) l).
  fold (omap (M:=list) (λ x, cells c !! x) l).
  rewrite IH; [done|]. intros Hin. apply Hfresh. by right.
Qed.

Lemma Set_all_listing (kvs : list (K * V)) c :
  wf c → (0 < capacity c ≤ Int64.max_int)%Z →
  (size c + Z.of_nat (length kvs) ≤ capacity c)%Z →
  NoDup kvs.*1 → (∀ k, k ∈ kvs.*1 → keysMap c !! k = None) →
  ∃ c', perform_all (uncurry CallSet <$> kvs) c = Ret (tt, c') ∧ wf c' ∧
    listing c' = reverse ((λ p, mkEntry false p.1 p.2) <$> kvs) ++ listing c ∧
    length (q c') = (length kvs + length (q c))%nat ∧
    hand c' = hand c ∧ capacity c' = capacity c.
Proof.
  revert c. induction kvs as [|[k v] kvs IH]; intros c Hwf Hcap Hfit Hnd Habs.
  - exists c. by split_and!.
  - rewrite fmap_cons in Hnd. apply NoDup_cons in Hnd as [Hk Hnd].
    cbn [length] in Hfit.
    assert (keysMap c !! k = None) as Hkc by (apply Habs; rewrite fmap_cons; left).
    destruct (inserted_wf c k v Hwf Hkc) as [Hwf1 Hsz1]; [lia|].
    destruct (IH (inserted k v c)) as (c' & Hrun & Hwf' & Hlist & Hlen & Hh & Hc');
      try done; try (simpl capacity; lia).
    { intros k' Hk'. simpl. rewrite lookup_insert_ne by (by intros ->).
      apply Habs. rewrite fmap_cons. by right. }
    exists c'. split_and!; try done.
    + rewrite fmap_cons. cbn [perform_all uncurry perform]. step.
      rewrite Set_absent_room by (done || lia). done.
    + rewrite Hlist, listing_inserted by done. rewrite fmap_cons, reverse_cons.
      by rewrite <-app_assoc.
    + rewrite Hlen. simpl. lia.
Qed.

(** X20.  Keys inserted into a new cache, no more of them than its
    capacity and each once, and then evicted without any [Get] in between
    come out in the order in which they were inserted. *)
Theorem Set_all_then_evict_in_order (cap : Z) (kvs : list (K * V)) :
  (0 < cap ≤ Int64.max_int)%Z → NoDup kvs.*1 →
  (Z.of_nat (length kvs) ≤ cap)%Z →
  ∃ c c',
    perform_all (uncurry CallSet <$> kvs) (NewCache cap) = Ret (tt, c) ∧
    evict_times (length kvs) c = Ret (kvs.*1, c') ∧
    Keys c' = [] ∧
    Resize 0 c = Ret (kvs.*1, set_capacity 0 c').
Proof.
  intros Hcap Hnd Hlen.
  destruct (Set_all_listing kvs (NewCache cap) (NewCache_wf cap))
    as (c & Hrun & Hwf & Hlist & Hlenq & Hhand & Hc);
    [simpl; lia|simpl; lia|done|intros k _; apply lookup_empty|].
  simpl in Hlist, Hlenq, Hhand, Hc. rewrite app_nil_r in Hlist.
  assert (Forall (λ x, visited <$> cells c !! x = Some false) (q c)) as Hunv.
  { assert (Forall (λ n, visited n = false) (listing c)) as Hl.
    { rewrite Hlist, Forall_forall. intros n Hn.
      rewrite elem_of_reverse in Hn.
      apply list_elem_of_fmap in Hn as (p & -> & _). done. }
    unfold listing in Hl. rewrite Forall_forall in Hl.
    rewrite Forall_forall. intros x Hx.
    destruct (wf_cells c x Hwf Hx) as [n Hn]. rewrite Hn. simpl. f_equal.
    apply Hl. apply list_elem_of_omap. by exists x. }
  destruct (evict_times_fifo (length (q c)) c eq_refl Hwf (or_introl Hhand) Hunv)
    as (c' & Htimes & Hwf' & Hq' & Hcap').
  assert (reverse (key <$> listing c) = kvs.*1) as Hkeys.
  { rewrite Hlist, fmap_reverse, reverse_involutive, <-list_fmap_compose.
    by apply list_fmap_ext. }
  rewrite Hkeys in Htimes. replace (length (q c)) with (length kvs) in Htimes by lia.
  exists c, c'. split_and!; try done.
  - destruct (wf_Keys c' Hwf') as [Hl _]. unfold Size in Hl.
    rewrite (wf_length c' Hwf'), Hq' in Hl. by destruct (Keys c').
  - rewrite Resize_shrink by lia.
    pose proof (wf_length c Hwf) as Hsz.
    unfold Int64.sub. rewrite Int64Facts.wrap_in_range
      by (unfold Int64.in_range, Int64.min_int, Int64.max_int in *; lia).
    replace (Z.to_nat (size c - 0)) with (length kvs) by lia.
    by rewrite Htimes.
Qed.

(** ** Runs within the capacity *)

Lemma Get_keeps_cap c k r c' :
  Get k c = Ret (r, c') → capacity c' = capacity c ∧ size c' = size c.
Proof.
  unfold Get. run. destruct (keysMap c !! k) as [e|]; [|by intros [= _ <-]].
  run. destruct (cells c !! e); [|done]. by intros [= _ <-].
Qed.

Lemma perform_bounded c (o : call) :
  bounded c → is_Delete o = false →
  (∀ m : Z, o = CallResize m → (0 ≤ m ≤ Int64.max_int)%Z) →
  ∃ c', perform o c = Ret (tt, c') ∧ bounded c'.
Proof.
  intros (Hwf & Hcap & Hsz) Hnd Hres. pose proof (wf_length c Hwf) as Hlen.
  destruct o as [k v|k|k|k| |n| ]; try done; cbn [perform].
  - destruct (decide (capacity c <= 0)%Z) as [Hc|Hc].
    { rewrite Set_disabled by done. by exists c. }
    destruct (keysMap c !! k) as [e|] eqn:Hk.
    + destruct (wf_indexed c k e Hwf Hk) as (_ & n & Hn & _).
      rewrite (Set_present c k v e n) by (done || lia).
      eexists. split; [done|]. split_and!; try done.
      apply flags_wf; [|done]. intros x. apply alter_visited_key.
    + destruct (Set_step c k v Hwf) as (c' & Hset & Hwf' & Hc' & Hs' & _);
        [lia|lia|done|].
      exists c'. split; [done|]. split_and!; [done|lia|lia].
  - destruct (Get_wf c k Hwf) as (r & c' & Hget & Hwf' & Hs').
    step. rewrite Hget. exists c'. split; [done|].
    destruct (Get_keeps_cap c k r c' Hget) as [Hc' _].
    split_and!; [done|lia|lia].
  - step. by exists c.
  - destruct (evict_wf c Hwf) as (r & c' & Hev & Hwf' & Hc' & Hcase).
    unfold Evict. step. rewrite Hev. exists c'. split; [done|].
    split_and!; [done|lia|].
    destruct Hcase as [(_ & _ & ->)|(_ & _ & -> & _)]; lia.
  - specialize (Hres n eq_refl). step.
    destruct (decide (n >= capacity c)%Z) as [Hge|Hlt].
    + rewrite Resize_grow by done. eexists. split; [done|].
      split_and!; [done|simpl; lia|simpl; lia].
    + rewrite Resize_shrink by lia.
      unfold Int64.sub. rewrite Int64Facts.wrap_in_range
        by (unfold Int64.in_range, Int64.min_int, Int64.max_int in *; lia).
      destruct (evict_times_keys (Z.to_nat (size c - n)) c Hwf)
        as (ks & c' & -> & Hwf' & Hc' & _ & Hlk & Hs' & _).
      eexists. split; [done|]. split_and!; [done|simpl; lia|simpl; lia].
  - eexists. split; [done|]. split_and!; [apply init_wf|done|simpl; lia].
Qed.

(** X21.  From a new cache, whatever its capacity, every run of [Set],
    [Get], [Contains], [Evict], [Clear] and [Resize] calls, the latter to
    capacities that are not negative, returns without a panic and ends in
    a state that satisfies the invariants, in which [Size()] is the number
    of keys and is at most the capacity (zero when the capacity is
    negative). *)
Theorem run_respects_capacity (cap : Z) (l : list call) :
  (cap ≤ Int64.max_int)%Z →
  Forall (λ o, is_Delete o = false ∧
               ∀ m : Z, o = CallResize m → (0 ≤ m ≤ Int64.max_int)%Z) l →
  ∃ c, perform_all l (NewCache cap) = Ret (tt, c) ∧ wf c ∧
       Z.of_nat (length (Keys c)) = Size c ∧
       (Size c ≤ 0 `max` Capacity c)%Z.
Proof.
  intros Hcap Hl.
  assert (bounded (NewCache (K:=K) (V:=V) cap)) as Hb.
  { split_and!; [apply NewCache_wf|done|simpl; lia]. }
  revert Hb. generalize (NewCache (K:=K) (V:=V) cap).
  induction Hl as [|o l [Ho Hres] _ IH]; intros c Hb.
  - exists c. destruct Hb as (Hwf & _ & Hsz). split_and!; try done.
    by destruct (wf_Keys c Hwf).
  - destruct (perform_bounded c o Hb Ho Hres) as (c1 & Hp & Hb1).
    destruct (IH c1 Hb1) as (c' & Hall & Hrest).
    exists c'. split; [|done]. cbn [perform_all]. step. by rewrite Hp.
Qed.

(** ** After a [Delete] *)

(** The scan does not look at [size]. *)
Lemma scan_set_size (fuel : nat) curr (sz : Z) c :
  scan fuel curr (set_size sz c) =
    match scan fuel curr c with
    | Ret (v, c') => Ret (v, set_size sz c')
    | Fail f => Fail f
    end.
Proof.
  revert c curr. induction fuel as [|fuel IH]; intros c curr; [done|].
  simpl. destruct curr as [e|]; [|done]. run.
  destruct (cells c !! e) as [n|]; [|done].
  destruct (visited n); simpl; [|done]. apply (IH (set_cells _ c)).
Qed.

(** [evict] uses [size] for its emptiness test and decrements it, nothing
    else: on two states that differ in a non-zero [size] only, it does the
    same. *)
Lemma evict_set_size (sz : Z) c :
  size c ≠ 0%Z → sz ≠ 0%Z →
  evict (set_size sz c) =
    match evict c with
    | Ret (r, c') => Ret (r, set_size (Int64.sub sz 1) c')
    | Fail f => Fail f
    end.
Proof.
  intros Hc Hsz. unfold evict. step. simpl size.
  rewrite !decide_False by done. unfold scan_fuel. simpl cells. simpl q.
  simpl hand. rewrite scan_set_size.
  destruct (scan _ (or_back (q c) (hand c)) c) as [[v c1]|f]; [|done].
  run. by destruct (cells c1 !! v).
Qed.

(** The state a [Delete] would leave had it decremented [size]. *)
Lemma Delete_keeps_index_aux c k e :
  wf c → keysMap c !! k = Some e → hand c ≠ Some e →
  ∃ n cr,
    Delete k c = Ret ((value n, None), set_size (size c) cr) ∧
    wf cr ∧ Keys c ≡ₚ k :: Keys cr ∧
    size cr = (size c - 1)%Z ∧
    keysMap cr = delete k (keysMap c) ∧ capacity cr = capacity c.
Proof.
  intros Hwf Hk Hhand. pose proof Hwf as (Hnd & Hlive & Hidx & Hh & Hlen & Hmax).
  destruct (wf_indexed c k e Hwf Hk) as (He & n & Hn & Hkey).
  pose proof (GoListFacts.length_Remove (q c) e Hnd He) as HlenR.
  exists n, (set_size (size c - 1)
               (set_q (GoList.Remove (q c) e)
                  (set_keysMap (delete k (keysMap c)) c))).
  split_and!; try done.
  - rewrite (Delete_present c k e n) by done. by destruct c.
  - unfold wf; simpl. split_and!.
    + by apply GoListFacts.NoDup_Remove.
    + rewrite Forall_forall. intros x [Hx Hne]%GoListFacts.elem_of_Remove.
      destruct (wf_live c x Hwf Hx) as (nx & Hnx & Hkx).
      unfold live; simpl. rewrite Hnx; simpl.
      rewrite lookup_delete_ne; [done|].
      intros Heq. rewrite <-Heq in Hkx. congruence.
    + intros k1 e1 [Hne Hk1]%lookup_delete_Some.
      destruct (Hidx k1 e1 Hk1) as [He1 Hke1]. unfold indexed; simpl.
      split; [|done]. apply GoListFacts.elem_of_Remove. split; [done|].
      intros ->. rewrite Hn in Hke1. simpl in Hke1. congruence.
    + unfold hand_linked in *; simpl. destruct (hand c) as [hd|]; [|done].
      apply GoListFacts.elem_of_Remove. split; [done|]. congruence.
    + lia.
    + lia.
  - by apply (Keys_delete c _ k e).
Qed.

(** X22.  [Delete] costs the cache a slot.  On a full cache (with room for
    at least two entries) that satisfies the invariants, deleting a key the
    hand is not on and then inserting a key evicts a further entry although
    the deletion has made room: the cache ends with one entry fewer than
    its capacity while [Size()] equals the capacity. *)
Theorem Delete_then_Set_evicts c k e k' (v : V) :
  wf c → (1 < capacity c ≤ Int64.max_int)%Z → size c = capacity c →
  keysMap c !! k = Some e → hand c ≠ Some e →
  (k' = k ∨ keysMap c !! k' = None) →
  ∃ k0 c',
    (Delete k;; Set_ k' v) c = Ret (tt, c') ∧
    k0 ≠ k ∧ k :: k0 :: Keys c' ≡ₚ k' :: Keys c ∧
    Size c' = Capacity c' ∧
    Z.of_nat (length (Keys c')) = (Capacity c' - 1)%Z.
Proof.
  intros Hwf Hcap Hfull Hk Hhand Hk'.
  destruct (Delete_keeps_index_aux c k e Hwf Hk Hhand)
    as (n & cr & Hdel & Hwfr & Hperm & Hszr & Hidxr & Hcapr).
  set (cd := set_size (size c) cr) in *.
  assert (size cr ≠ 0%Z) as Hnz by lia.
  destruct (evict_keys cr Hwfr Hnz)
    as (k0 & c1 & Hev & Hwf1 & Hcap1 & Hsz1 & Hperm1 & Hidx1 & _).
  assert (evict cd = Ret ((k0, None), set_size (size c - 1) c1)) as Hevd.
  { unfold cd. rewrite evict_set_size, Hev by (done || lia).
    do 3 f_equal. apply Int64Facts.wrap_in_range.
    unfold Int64.in_range, Int64.min_int, Int64.max_int in *. lia. }
  assert (keysMap cd !! k' = None) as Hk'd.
  { simpl. rewrite Hidxr. apply lookup_delete_None.
    destruct Hk' as [->|?]; [by left|by right]. }
  set (c2 := set_size (size c - 1) c1) in *.
  assert (keysMap c2 !! k' = None) as Hk'2.
  { simpl. rewrite Hidx1. apply lookup_delete_None. right.
    rewrite Hidxr. apply lookup_delete_None.
    destruct Hk' as [->|?]; [by left|by right]. }
  assert (k0 ∈ Keys cr) as Hk0 by (rewrite Hperm1; left).
  assert (k0 ≠ k) as Hne.
  { intros ->. unfold Keys in Hk0.
    apply list_elem_of_fmap in Hk0 as ([k1 e1] & -> & Hin).
    apply elem_of_map_to_list in Hin. simpl in Hin.
    by rewrite Hidxr, lookup_delete_eq in Hin. }
  exists k0, (inserted k' v c2). split_and!; try done.
  - step. rewrite Hdel. fold cd.
    apply (Set_absent_full cd k' v (k0, None)); try done; simpl; lia.
  - rewrite (Keys_inserted c2 k' v Hk'2).
    change (Keys c2) with (Keys c1).
    rewrite Hperm, Hperm1. symmetry.
    change (k :: k0 :: k' :: Keys c1) with ([k; k0] ++ k' :: Keys c1).
    by apply Permutation_cons_app.
  - unfold Size, Capacity. simpl. rewrite Hcap1, Hcapr.
    unfold Int64.add. rewrite Int64Facts.wrap_in_range
      by (unfold Int64.in_range, Int64.min_int, Int64.max_int in *; lia).
    lia.
  - unfold Capacity. simpl capacity. rewrite Hcap1, Hcapr.
    rewrite (Keys_inserted c2 k' v Hk'2). change (Keys c2) with (Keys c1).
    destruct (wf_Keys c1 Hwf1) as [Hl _]. unfold Size in Hl.
    cbn [length]. lia.
Qed.

(** X23.  A cache of capacity one panics on re-insertion after a deletion:
    when its only key is deleted (the hand being nil) the stale [size]
    still equals the capacity, so the next [Set] calls [evict] on an empty
    list and dereferences nil. *)
Theorem Delete_then_Set_panics c k e k' (v : V) :
  wf c → capacity c = 1%Z → size c = 1%Z →
  keysMap c !! k = Some e → hand c = None →
  (Delete k;; Set_ k' v) c = Fail NilDereference.
Proof.
  intros Hwf Hcap Hsz Hk Hhand.
  destruct (wf_indexed c k e Hwf Hk) as (He & n & Hn & Hkey).
  assert (q c = [e]) as Hq.
  { pose proof (wf_length c Hwf) as Hlen. rewrite Hsz in Hlen.
    destruct (q c) as [|a [|b l]]; simpl in Hlen; try lia.
    by apply list_elem_of_singleton in He as ->. }
  step. rewrite (Delete_present c k e n) by done.
  set (cd := set_q _ _).
  assert (keysMap cd !! k' = None) as Hk'.
  { simpl. apply lookup_delete_None.
    destruct (decide (k = k')) as [->|Hne]; [by left|right].
    destruct (keysMap c !! k') as [e'|] eqn:Hk''; [|done].
    destruct (wf_indexed c k' e' Hwf Hk'') as (He' & n' & Hn' & Hkey').
    rewrite Hq in He'. apply list_elem_of_singleton in He' as ->. congruence. }
  apply Set_absent_full_fail; try done; simpl; try lia.
  unfold evict. step. simpl. rewrite decide_False by lia.
  rewrite Hhand, Hq. simpl.
  change (GoList.Remove [e] e) with (GoList.Remove ([] ++ [e]) e).
  rewrite Remove_back by apply NoDup_singleton. done.
Qed.

(** ** The count of evictions of [Resize] *)


(** ** Scans given step by step *)

Lemma sweep_to l h e h1 h2 v :
  sweep l h e h1 v → h1 = h2 → sweep l h e h2 v.
Proof. by intros ? <-. Qed.

End SieveMore.



(** ** Scenarios *)

Import Scenario.
#[local] Open Scope string_scope.

(** Establishing the invariants of a concrete cache by evaluation. *)
Ltac wf_by_evaluation :=
  match goal with
  | |- ?P => apply (bool_decide_unpack P); vm_compute; exact I
  end.

(** C1 (the code departs from the claim).  After [NewCache(5)] and
    [Set("a", "A")], the call [Delete("a")] returns the stored value "A" and
    removes the entry from the list and from the index, but [Size()] answers
    1 before the call and still 1 after it: [Delete] has no [c.size--]. *)
Theorem Delete_keeps_size :
  Size one = 1%Z ∧
  ∃ c', Delete "a" one = Ret (("A", None), c') ∧
        q c' = [] ∧ keysMap c' = ∅ ∧ Size c' = 1%Z.
Proof.
  split; [done|]. eexists. split; [vm_compute; reflexivity|]. by vm_compute.
Qed.

(** C2 (the code departs from the claim).  After the public calls
    [NewCache(5)], [Set("a", "A")] and [Delete("a")] the index holds no key,
    [Keys()] and [Items()] are empty, and [Size()] answers 1. *)
Theorem Size_exceeds_Keys :
  perform_all [CallSet "a" "A"; CallDelete "a"] (NewCache 5) = Ret (tt, emptied) ∧
  Size emptied = 1%Z ∧
  Keys emptied = [] ∧
  Items emptied = Ret ([], emptied).
Proof. by vm_compute. Qed.

(** C3 (the code departs from the claim).  The cache reached by the public
    calls [NewCache(5)], [Set("a", "A")], [Delete("a")] holds no entry, and
    [Evict()] on it does not return [ErrEmptyCache]: [size] is still 1, the
    hand is nil and so is the back of the empty list, and [curr.Value]
    dereferences nil. *)
Theorem Evict_panics_on_emptied_cache :
  perform_all [CallSet "a" "A"; CallDelete "a"] (NewCache 5) = Ret (tt, emptied) ∧
  q emptied = [] ∧ keysMap emptied = ∅ ∧ hand emptied = None ∧
  size emptied = 1%Z ∧
  Evict emptied = Fail NilDereference.
Proof. by vm_compute. Qed.

(** [Delete] does not adjust the hand either (the defect that section 4.4
    of the specification records): after A, B and C are set and A is
    evicted the hand is on B; deleting B leaves it there, and the next
    [Evict] reports B, an entry the cache no longer holds, as its victim. *)
Example Delete_leaves_hand_dangling :
  ∃ c c' : cache,
    perform_all [CallSet "A" "1"; CallSet "B" "2"; CallSet "C" "3";
                 CallEvict; CallDelete "B"] (NewCache 5) = Ret (tt, c) ∧
    hand c = Some 1%nat ∧ q c = [2%nat] ∧ Keys c = ["C"] ∧
    Evict c = Ret (("B", None), c') ∧
    q c' = [2%nat] ∧ Keys c' = ["C"] ∧ hand c' = None.
Proof.
  do 2 eexists. split; [vm_compute; reflexivity|].
  do 3 (split; [vm_compute; reflexivity|]).
  split; [vm_compute; reflexivity|]. by vm_compute.
Qed.

(** C4 (the code departs from the claim).  The public calls [NewCache(5)],
    [Set] of A, B and C, [Evict()] and [Delete("B")] reach a cache that is
    not empty: it holds C, and [Size()] answers 2.  Its hand is still on
    the entry of B, which [Delete] unlinked without moving the hand.
    [Evict()] on it starts at that entry and returns its key B with a nil
    error, a key that [Contains] denies, while the list and the index are
    left as they were: no entry is evicted, and C, the only entry, is not
    even reached. *)
Theorem Evict_reports_deleted_key :
  perform_all [CallSet "A" "1"; CallSet "B" "2"; CallSet "C" "3";
               CallEvict; CallDelete "B"] (NewCache 5) = Ret (tt, dangling) ∧
  q dangling = [2%nat] ∧ Keys dangling = ["C"] ∧ Size dangling = 2%Z ∧
  hand dangling = Some 1%nat ∧ (1%nat ∉ q dangling) ∧
  Contains "B" dangling = Ret (false, dangling) ∧
  ∃ c', Evict dangling = Ret (("B", None), c') ∧
        q c' = q dangling ∧ keysMap c' = keysMap dangling ∧
        Keys c' = ["C"] ∧ Size c' = 1%Z.
Proof.
  split; [by vm_compute|]. split; [by vm_compute|].
  split; [by vm_compute|]. split; [by vm_compute|].
  split; [by vm_compute|]. split; [wf_by_evaluation|].
  split; [by vm_compute|].
  eexists. split; [vm_compute; reflexivity|].
  split; [by vm_compute|]. split; [by vm_compute|].
  split; by vm_compute.
Qed.

(** C6 (the code departs from the claim).  The public calls [NewCache(1)],
    [Set("a", "A")] and [Delete("a")] reach a cache of capacity 1 that
    holds no entry and whose [size] is still 1.  [Set("b", "B")] on it, a
    key that is absent, takes the cache for full and calls [evict], which
    dereferences the nil back of the empty list: the call panics and the
    key is not inserted. *)
Theorem Set_panics_after_Delete :
  perform_all [CallSet "a" "A"; CallDelete "a"] (NewCache 1)
    = Ret (tt, single_emptied) ∧
  Capacity single_emptied = 1%Z ∧ Size single_emptied = 1%Z ∧
  q single_emptied = [] ∧ keysMap single_emptied = ∅ ∧
  Contains "b" single_emptied = Ret (false, single_emptied) ∧
  Set_ "b" "B" single_emptied = Fail NilDereference.
Proof. by vm_compute. Qed.

(** C5.  On a new cache of capacity 3, after [Set] of A, B, C and A again,
    [Get(B)] and [Get(C)], the three entries are all visited (A by its
    second [Set], which keeps the first value, B and C by their [Get]) and
    the hand is nil; without these calls every entry is unvisited.  The call
    [Evict()] succeeds and returns key A, whatever the values stored: the
    scan starts at the back of the list, the entry of A, demotes A, B and C
    in turn, wraps from the front to the back and takes A, now unvisited.
    It leaves B and C in the list and in the index, unvisited, the hand on
    B, the entry before A, and A out of the index. *)
Theorem scenario_evicts_A (V : Type) `{Zero V} (a b c a' : V) :
  ∃ c0 c1 c2 : Cache (K:=string) (V:=V),
    (Set_ "A" a;; Set_ "B" b;; Set_ "C" c;; Set_ "A" a';; Get "B";; Get "C")
      (NewCache 3) = Ret ((c, None), c0) ∧
    Evict c0 = Ret (("A", None), c1) ∧
    q c0 = [2; 1; 0]%nat ∧ q c1 = [2; 1]%nat ∧ hand c1 = Some 1%nat ∧
    visited <$> cells c1 !! 2%nat = Some false ∧
    visited <$> cells c1 !! 1%nat = Some false ∧
    hand c0 = None ∧ GoList.Back (q c0) = Some 0%nat ∧
    cells c0 !! 0%nat = Some (mkEntry true "A" a) ∧
    cells c0 !! 1%nat = Some (mkEntry true "B" b) ∧
    cells c0 !! 2%nat = Some (mkEntry true "C" c) ∧
    sweep (q c0) (cells c0) 0%nat (cells c1) 0%nat ∧
    cells c1 !! 0%nat = Some (mkEntry false "A" a) ∧
    keysMap c1 !! "A" = None ∧
    keysMap c1 !! "B" = Some 1%nat ∧ keysMap c1 !! "C" = Some 2%nat ∧
    Size c0 = 3%Z ∧ Size c1 = 2%Z ∧
    (Set_ "A" a;; Set_ "B" b;; Set_ "C" c) (NewCache 3) = Ret (tt, c2) ∧
    cells c2 !! 0%nat = Some (mkEntry false "A" a) ∧
    cells c2 !! 1%nat = Some (mkEntry false "B" b) ∧
    cells c2 !! 2%nat = Some (mkEntry false "C" c).
Proof.
  exists
    (match (Set_ "A" a;; Set_ "B" b;; Set_ "C" c;; Set_ "A" a';; Get "B";;
            Get "C") (NewCache 3) with
     | Ret (_, c') => c'
     | Fail _ => NewCache 3
     end),
    (match (Set_ "A" a;; Set_ "B" b;; Set_ "C" c;; Set_ "A" a';; Get "B";;
            Get "C";; Evict) (NewCache 3) with
     | Ret (_, c') => c'
     | Fail _ => NewCache 3
     end),
    (match (Set_ "A" a;; Set_ "B" b;; Set_ "C" c) (NewCache 3) with
     | Ret (_, c') => c'
     | Fail _ => NewCache 3
     end).
  split_and!; try (vm_compute; reflexivity).
  eapply sweep_to.
  - eapply sweep_pred;
      [vm_compute; reflexivity|reflexivity|vm_compute; reflexivity|].
    eapply sweep_pred;
      [vm_compute; reflexivity|reflexivity|vm_compute; reflexivity|].
    eapply sweep_wrap;
      [vm_compute; reflexivity|reflexivity|vm_compute; reflexivity
      |vm_compute; reflexivity|].
    eapply sweep_victim; [vm_compute; reflexivity|reflexivity].
  - vm_compute; reflexivity.
Qed.

(** C7.  [Contains] answers whether the key is in the index and returns the
    cache exactly as it was, so every later run of [Evict] calls gives the
    same results with or without it.  [Get] on a present key sets the
    visited flag of its entry, and that can change the victim of the next
    eviction: on the cache holding A, B and C, [Evict] alone removes A, and
    after [Get(A)] it removes B. *)
Theorem Contains_observes_Get_touches :
  (∀ (K V : Type) `(Countable K) `(Zero K) `(Zero V)
     (c : Cache (K:=K) (V:=V)) (k : K),
     Contains k c = Ret (bool_decide (is_Some (keysMap c !! k)), c) ∧
     (∀ m, (Contains k;; Evict_seq m) c = Evict_seq m c) ∧
     (∀ e n, keysMap c !! k = Some e → cells c !! e = Some n →
        Get k c =
          Ret ((value n, None),
               set_cells (<[e := mkEntry true (key n) (value n)]> (cells c)) c))) ∧
  (∃ c1 c2 : cache,
     wf full ∧
     Evict full = Ret (("A", None), c1) ∧
     (Contains "A";; Evict) full = Ret (("A", None), c1) ∧
     (Get "A";; Evict) full = Ret (("B", None), c2)).
Proof.
  split.
  - intros K V ? ? ? ? c k. split_and!.
    + apply Contains_eq.
    + apply Contains_frame.
    + intros e n Hk He. rewrite (Get_present c k e n) by done.
      by rewrite (alter_Some _ _ n).
  - do 2 eexists. split; [wf_by_evaluation|].
    split; [vm_compute; reflexivity|].
    split; vm_compute; reflexivity.
Qed.


(** ** The hypotheses of the statements are met *)

Lemma evict_spec_witness :
  wf full ∧ size full ≠ 0%Z ∧ ∃ k c', Evict full = Ret ((k, None), c').
Proof.
  assert (wf full) as Hwf by wf_by_evaluation.
  assert (size full ≠ 0%Z) as Hsz by (by vm_compute).
  split; [exact Hwf|]. split; [exact Hsz|].
  destruct (evict_spec full Hsz) as [_ Hex].
  destruct (Hex Hwf) as (start & v & n & h' & _ & _ & _ & _ & _ & _ & _ & Hev).
  exists (key n). eexists. exact Hev.
Defined.

Lemma Set_spec_witness :
  ∃ victim c1,
    evict full = Ret ((victim, None), c1) ∧
    Set_ "D" "4" full = Ret (tt, inserted "D" "4" c1).
Proof.
  destruct (Set_spec full "D" "4") as (_ & Hpos & _).
  destruct Hpos as (_ & _ & _ & Hfull); [by vm_compute|].
  destruct Hfull as (victim & c1 & Hev & _ & _ & _ & Hset);
    [by vm_compute|by vm_compute|wf_by_evaluation|].
  exists victim, c1. split; [exact Hev|exact Hset].
Defined.


Lemma error_leaves_state_witness :
  (ErrKeyNotFound = ErrKeyNotFound ∧ one = one) ∧
  (ErrKeyNotFound = ErrKeyNotFound ∧ one = one) ∧
  (ErrEmptyCache = ErrEmptyCache ∧ NewCache 3 = NewCache (K:=string) (V:=string) 3).
Proof.
  split; [|split].
  - apply (proj1 (error_leaves_state one) "b" "" ErrKeyNotFound one).
    reflexivity.
  - apply (proj1 (proj2 (error_leaves_state one)) "b" "" ErrKeyNotFound one).
    reflexivity.
  - apply (proj2 (proj2 (error_leaves_state (NewCache 3))) "" ErrEmptyCache
             (NewCache 3)).
    reflexivity.
Defined.

Lemma error_returns_zero_witness :
  "" = zero ∧ "" = zero ∧ "" = zero.
Proof.
  split; [|split].
  - apply (proj1 (error_returns_zero one) "b" "" one). reflexivity.
  - apply (proj1 (proj2 (error_returns_zero one)) "b" "" one). reflexivity.
  - apply (proj2 (proj2 (error_returns_zero (NewCache (V:=string) 3))) ""
             (NewCache 3)).
    reflexivity.
Defined.

Lemma Contains_observes_Get_touches_witness :
  ∃ c', Get "A" full = Ret (("1", None), c') ∧
        visited <$> cells c' !! 0%nat = Some true.
Proof.
  destruct Contains_observes_Get_touches as [Hgen _].
  destruct (Hgen string string _ _ _ _ full "A") as (_ & _ & Hget).
  eexists. split.
  - apply (Hget 0%nat (mkEntry false "A" "1")); by vm_compute.
  - by vm_compute.
Defined.

(** ** The hypotheses of the further properties are met *)

Import Samples.

Ltac by_evaluation :=
  match goal with
  | |- ?P => apply (bool_decide_unpack P); vm_compute; exact I
  end.

Lemma Set_then_Get_witness :
  ∃ c1 c2, Set_ "b" "B" one = Ret (tt, c1) ∧ Get "b" c1 = Ret (("B", None), c2).
Proof.
  destruct (Set_then_Get one "b" "B") as (c1 & c2 & Hset & _ & Hget);
    [by_evaluation|by vm_compute|by vm_compute|].
  exists c1, c2. split; [exact Hset|exact Hget].
Defined.

Lemma Set_existing_keeps_value_witness :
  ∃ c1 c2, Set_ "a" "Z" one = Ret (tt, c1) ∧ Get "a" c1 = Ret (("A", None), c2).
Proof.
  destruct (Set_existing_keeps_value one "a" "Z" 0%nat (mkEntry false "a" "A"))
    as (c1 & c2 & Hset & Hget & _); [by vm_compute|by vm_compute|].
  exists c1, c2. split; [exact Hset|exact Hget].
Defined.

Lemma Get_keeps_entries_witness :
  q (after (Get "a") one) = q one ∧ keysMap (after (Get "a") one) = keysMap one.
Proof.
  destruct (Get_keeps_entries one "a" ("A", None) (after (Get "a") one))
    as (_ & _ & Hq & Hidx & _); [vm_compute; reflexivity|].
  split; [exact Hq|exact Hidx].
Defined.

Lemma Contains_Keys_Get_witness :
  "A" ∈ Keys full ↔ ∃ (v : string) c', Get "A" full = Ret ((v, None), c').
Proof.
  destruct (Contains_Keys_Get full "A") as (_ & _ & Hget).
  apply Hget. by_evaluation.
Defined.

Lemma Delete_then_absent_witness :
  Contains "a" emptied = Ret (false, emptied) ∧
  Get "a" emptied = Ret (("", Some ErrKeyNotFound), emptied).
Proof.
  destruct (Delete_then_absent one "a" "A" emptied) as (Hc & Hg & _);
    [vm_compute; reflexivity|].
  split; [exact Hc|exact Hg].
Defined.

Lemma Delete_keeps_index_witness :
  ∃ c', Delete "B" full = Ret (("2", None), c') ∧
        size c' = (Z.of_nat (length (q c')) + 1)%Z.
Proof.
  destruct (Delete_keeps_index full "B" 1%nat) as (n & c' & Hn & _ & Hdel & Hrest);
    [by_evaluation|vm_compute; reflexivity|].
  exists c'. split.
  - replace "2" with (value n); [exact Hdel|].
    vm_compute in Hn. by injection Hn as <-.
  - by destruct Hrest as (_ & _ & _ & _ & _ & Hsz & _).
Defined.

Lemma Evict_removes_one_key_witness :
  ∃ k c', Evict full = Ret ((k, None), c') ∧ Size c' = (Size full - 1)%Z.
Proof.
  destruct (Evict_removes_one_key full) as (k & c' & Hev & _ & _ & _ & _ & Hsz & _);
    [by_evaluation|by vm_compute|].
  exists k, c'. split; [exact Hev|exact Hsz].
Defined.

Lemma Resize_shrinks_witness :
  ∃ ks c', Resize 1 full = Ret (ks, c') ∧ Size c' = 1%Z.
Proof.
  destruct (Resize_shrinks full 1) as (ks & c' & Hres & _ & _ & _ & Hsz & _);
    [by_evaluation|by vm_compute|by vm_compute|].
  exists ks, c'. split; [exact Hres|]. rewrite Hsz. by vm_compute.
Defined.

Lemma Resize_overflow_evicts_nothing_witness :
  Resize Int64.min_int full = Ret ([], set_capacity Int64.min_int full).
Proof.
  apply Resize_overflow_evicts_nothing; by vm_compute.
Defined.

Lemma Items_agree_with_Get_witness :
  ∃ items,
    items_of (reverse (map_to_list (keysMap full))) full = Ret (items, full) ∧
    Key <$> items ≡ₚ Keys full.
Proof.
  destruct (Items_agree_with_Get full (map_to_list (keysMap full))
              (reverse (map_to_list (keysMap full))))
    as (items & Hit & Hkeys & _);
    [by_evaluation|by unfold range_order
    |unfold range_order; apply reverse_Permutation|].
  exists items. split; [exact Hit|exact Hkeys].
Defined.

Lemma Set_respects_capacity_witness :
  ∃ c', Set_ "D" "4" full = Ret (tt, c') ∧ (Size c' ≤ Capacity c')%Z.
Proof.
  destruct (Set_respects_capacity full "D" "4") as (c' & Hset & _ & _ & Hsz);
    [by_evaluation|by vm_compute|by vm_compute|].
  exists c'. split; [exact Hset|exact Hsz].
Defined.


Lemma Set_all_then_Get_witness :
  ∃ c, perform_all (uncurry CallSet <$> pairs) (NewCache 3) = Ret (tt, c) ∧
       Keys c ≡ₚ pairs.*1.
Proof.
  destruct (Set_all_then_Get 3 pairs) as (c & Hrun & _ & _ & Hkeys & _);
    [by vm_compute|by_evaluation|by vm_compute|].
  exists c. split; [exact Hrun|exact Hkeys].
Defined.

Lemma Evict_first_unvisited_witness :
  ∃ c', Evict touched = Ret (("B", None), c').
Proof.
  destruct (Evict_first_unvisited touched [2; 1]%nat [] [0%nat] [2%nat]
              0%nat 1%nat (mkEntry false "B" "2")) as (h' & Hev & _);
    [by_evaluation|by vm_compute|vm_compute; reflexivity|vm_compute; reflexivity
    |vm_compute; reflexivity|by_evaluation|vm_compute; reflexivity|reflexivity|].
  eexists. exact Hev.
Defined.


Lemma Evict_spares_visited_witness :
  ∃ e n c', Evict touched = Ret ((key n, None), c') ∧
            cells touched !! e = Some n ∧ visited n = false.
Proof.
  destruct (Evict_spares_visited touched 1%nat)
    as (e & n & c' & Hev & _ & Hn & Hv);
    [by_evaluation|by_evaluation|vm_compute; reflexivity|].
  exists e, n, c'. split; [exact Hev|]. split; [exact Hn|exact Hv].
Defined.



Lemma Set_all_then_evict_in_order_witness :
  ∃ c c', perform_all (uncurry CallSet <$> pairs) (NewCache 3) = Ret (tt, c) ∧
          evict_times 3 c = Ret (["A"; "B"; "C"], c').
Proof.
  destruct (Set_all_then_evict_in_order 3 pairs) as (c & c' & Hrun & Hev & _);
    [by vm_compute|by_evaluation|by vm_compute|].
  exists c, c'. split; [exact Hrun|exact Hev].
Defined.

Lemma run_respects_capacity_witness :
  ∃ c, perform_all calls (NewCache 2) = Ret (tt, c) ∧
       (Size c ≤ 0 `max` Capacity c)%Z.
Proof.
  destruct (run_respects_capacity 2 calls) as (c & Hrun & _ & _ & Hsz);
    [by vm_compute| |].
  - repeat (apply Forall_cons; split;
              [split; [reflexivity|intros m [= <-]; by vm_compute]|]).
    apply Forall_nil_2.
  - exists c. split; [exact Hrun|exact Hsz].
Defined.

Lemma Delete_then_Set_evicts_witness :
  ∃ k0 c', (Delete "B";; Set_ "D" "4") full = Ret (tt, c') ∧
           Z.of_nat (length (Keys c')) = (Capacity c' - 1)%Z ∧ k0 ≠ "B".
Proof.
  destruct (Delete_then_Set_evicts full "B" 1%nat "D" "4")
    as (k0 & c' & Hrun & Hne & _ & _ & Hlen);
    [by_evaluation|by vm_compute|vm_compute; reflexivity|vm_compute; reflexivity
    |by vm_compute|right; vm_compute; reflexivity|].
  exists k0, c'. split; [exact Hrun|]. split; [exact Hlen|exact Hne].
Defined.

Lemma Delete_then_Set_panics_witness :
  (Delete "a";; Set_ "b" "B") single = Fail NilDereference.
Proof.
  apply (Delete_then_Set_panics single "a" 0%nat "b" "B");
    [by_evaluation|vm_compute; reflexivity|vm_compute; reflexivity
    |vm_compute; reflexivity|vm_compute; reflexivity].
Defined.
